(** * real-chat: the Socket.IO room server of [backend/src/index.ts]

    The server keeps no state of its own: room membership lives in the
    Socket.IO adapter ([socket.join], [io.to(room)], [io.in(room).allSockets()])
    and messages live in the Supabase table [messages].  Both handlers are
    [async]: each runs up to its next [await], is parked, and is resumed when
    the awaited promise settles.  The development models that directly: a
    [State] holds the adapter's rooms, the table, the parked handlers and the
    log of emitted events, and [step] runs one synchronous segment. *)

From Stdlib Require Import Ascii.
From stdpp Require Import gmap strings list fin_maps sorting.

Open Scope string_scope.
Open Scope list_scope.

(** ** Data *)

(** The object literal [msg] built by the [send-message] handler
    (index.ts, lines 141-146).  [created_at] is [new Date().toISOString()];
    the clock reading is kept as a number of milliseconds, whose order is the
    order of the ISO strings. *)
Module Msg.
Record t := mk {
  room_id : string;
  user_email : string;
  text : string;
  created_at : N
}.
End Msg.

(** A row of the table [messages], as [select('*')] returns it and as the
    client's [interface Message] declares it: the four columns of [msg] and
    the [id] the table assigns. *)
Module Message.
Record t := mk {
  id : nat;
  room_id : string;
  user_email : string;
  text : string;
  created_at : N
}.
End Message.

(** What the handlers emit.  [active-users] carries [clients.size] alone. *)
Inductive Event :=
| EvError (message : string)
| EvRoomHistory (msgs : list Message.t)
| EvActiveUsers (count : nat)
| EvNewMessage (msg : Msg.t).

(** One call of [emit], with the sockets it reached. *)
Record Emission := mkEmission {
  audience : gset string;
  event : Event
}.

(** How an awaited Supabase call settles: it resolves with [{data}], it
    resolves with [{error}], or the promise rejects and [await] throws. *)
Inductive Outcome := Succeed | Fail | Throw.

Inductive Reply (A : Type) :=
| Data (a : A)
| ErrorField
| Thrown.
Arguments Data {A} a.
Arguments ErrorField {A}.
Arguments Thrown {A}.

(** A handler parked at an [await].  The constructor says which [await] and
    carries the local variables the rest of the handler reads. *)
Inductive Task :=
| JoinAwaitSelect (sid roomId : string)
| JoinSelectDone (sid roomId : string) (reply : Reply (list Message.t))
| JoinAwaitSockets (sid roomId : string) (clients : gset string)
| SendAwaitInsert (sid : string) (msg : Msg.t)
| SendInsertDone (sid : string) (msg : Msg.t) (reply : Reply unit).

(** The server and its two collaborators:
    - [seen]: the socket ids Socket.IO has handed out (an id is never reused);
    - [connected]: the sockets that are open;
    - [rooms]: the adapter's map from room to the sockets in it;
    - [store]: the rows of the table [messages], in commit order;
    - [tasks], [next_task]: the parked handlers, by slot;
    - [trace]: every [emit] so far, oldest first. *)
Record State := mkState {
  seen : gset string;
  connected : gset string;
  rooms : gmap string (gset string);
  store : list Message.t;
  tasks : gmap nat Task;
  next_task : nat;
  trace : list Emission
}.

Definition init : State :=
  {| seen := ∅; connected := ∅; rooms := ∅; store := []; tasks := ∅;
     next_task := 0; trace := [] |}.

(** ** The Socket.IO adapter *)

Definition members (roomId : string) (σ : State) : gset string :=
  default ∅ (rooms σ !! roomId).

(** [socket.join(roomId)] *)
Definition socket_join (sid roomId : string) (σ : State) : State :=
  {| seen := seen σ; connected := connected σ;
     rooms := <[roomId := {[sid]} ∪ members roomId σ]> (rooms σ);
     store := store σ; tasks := tasks σ; next_task := next_task σ;
     trace := trace σ |}.

(** What Socket.IO does to the rooms when a socket closes: the socket leaves
    every room, and a room left empty is dropped. *)
Definition leave (sid : string) (s : gset string) : option (gset string) :=
  let s' := s ∖ {[sid]} in if decide (s' = ∅) then None else Some s'.

Definition leave_all (sid : string) (rs : gmap string (gset string))
  : gmap string (gset string) :=
  omap (leave sid) rs.

Definition log (e : Emission) (σ : State) : State :=
  {| seen := seen σ; connected := connected σ; rooms := rooms σ;
     store := store σ; tasks := tasks σ; next_task := next_task σ;
     trace := trace σ ++ [e] |}.

(** [socket.emit(ev, payload)]: to this socket only; a closed socket drops
    the packet. *)
Definition socket_emit (sid : string) (ev : Event) (σ : State) : State :=
  log {| audience := if decide (sid ∈ connected σ) then {[sid]} else ∅;
         event := ev |} σ.

(** [io.to(roomId).emit(ev, payload)]: to every socket in the room now. *)
Definition io_to_emit (roomId : string) (ev : Event) (σ : State) : State :=
  log {| audience := members roomId σ; event := ev |} σ.

(** ** The table [messages] *)

Definition created_le (a b : Message.t) : Prop :=
  (Message.created_at a <= Message.created_at b)%N.

#[global] Instance created_le_dec a b : Decision (created_le a b).
Proof. unfold created_le. apply _. Defined.

(** [.from('messages').select('*').eq('room_id', roomId)
     .order('created_at', { ascending: true })] *)
Definition select_messages (roomId : string) (tbl : list Message.t)
  : list Message.t :=
  merge_sort created_le
    (filter (λ r, Message.room_id r = roomId) tbl).

(** [.from('messages').insert(msg)]: the table assigns the next [id]. *)
Definition insert_row (msg : Msg.t) (tbl : list Message.t) : Message.t :=
  {| Message.id := S (length tbl);
     Message.room_id := Msg.room_id msg;
     Message.user_email := Msg.user_email msg;
     Message.text := Msg.text msg;
     Message.created_at := Msg.created_at msg |}.

(** ** Parked handlers *)

Definition park (t : Task) (σ : State) : State :=
  {| seen := seen σ; connected := connected σ; rooms := rooms σ;
     store := store σ; tasks := <[next_task σ := t]> (tasks σ);
     next_task := S (next_task σ); trace := trace σ |}.

Definition set_task (tid : nat) (t : Task) (σ : State) : State :=
  {| seen := seen σ; connected := connected σ; rooms := rooms σ;
     store := store σ; tasks := <[tid := t]> (tasks σ);
     next_task := next_task σ; trace := trace σ |}.

Definition finish (tid : nat) (σ : State) : State :=
  {| seen := seen σ; connected := connected σ; rooms := rooms σ;
     store := store σ; tasks := delete tid (tasks σ);
     next_task := next_task σ; trace := trace σ |}.

Definition commit (msg : Msg.t) (σ : State) : State :=
  {| seen := seen σ; connected := connected σ; rooms := rooms σ;
     store := store σ ++ [insert_row msg (store σ)]; tasks := tasks σ;
     next_task := next_task σ; trace := trace σ |}.

(** ** Handlers *)

(** [io.on('connection', socket => ...)]: Socket.IO gives the socket a fresh
    id and puts it in the room of that name; the handler registers the
    listeners below. *)
Definition on_connection (sid : string) (σ : State) : State :=
  socket_join sid sid
    {| seen := {[sid]} ∪ seen σ; connected := {[sid]} ∪ connected σ;
       rooms := rooms σ; store := store σ; tasks := tasks σ;
       next_task := next_task σ; trace := trace σ |}.

(** [socket.on('disconnect', ...)] (lines 165-167): by the time it runs
    Socket.IO has taken the socket out of its rooms; the handler itself only
    writes to the console. *)
Definition on_disconnect (sid : string) (σ : State) : State :=
  {| seen := seen σ; connected := connected σ ∖ {[sid]};
     rooms := leave_all sid (rooms σ); store := store σ; tasks := tasks σ;
     next_task := next_task σ; trace := trace σ |}.

(** [socket.on('join-room', ...)], up to the first [await] (lines 105-115). *)
Definition on_join_room (sid roomId userEmail : string) (σ : State) : State :=
  park (JoinAwaitSelect sid roomId) (socket_join sid roomId σ).

(** ... from the first [await] to the second (lines 117-126), with the
    [catch] of lines 130-133. *)
Definition join_room_after_select
    (tid : nat) (sid roomId : string) (reply : Reply (list Message.t))
    (σ : State) : State :=
  match reply with
  | ErrorField =>
      finish tid (socket_emit sid (EvError "Failed to load room history") σ)
  | Thrown =>
      finish tid (socket_emit sid (EvError "Failed to join room") σ)
  | Data msgs =>
      let σ1 := socket_emit sid (EvRoomHistory msgs) σ in
      set_task tid (JoinAwaitSockets sid roomId (members roomId σ1)) σ1
  end.

(** ... and after the second (line 127). *)
Definition join_room_after_sockets
    (tid : nat) (roomId : string) (clients : gset string) (σ : State) : State :=
  finish tid (io_to_emit roomId (EvActiveUsers (size clients)) σ).

(** [socket.on('send-message', ...)], up to the [await] (lines 138-148). *)
Definition on_send_message
    (sid roomId userEmail text : string) (now : N) (σ : State) : State :=
  let msg := {| Msg.room_id := roomId; Msg.user_email := userEmail;
                Msg.text := text; Msg.created_at := now |} in
  park (SendAwaitInsert sid msg) σ.

(** ... and after it (lines 150-157), with the [catch] of lines 159-162. *)
Definition send_message_after_insert
    (tid : nat) (sid : string) (msg : Msg.t) (reply : Reply unit) (σ : State)
  : State :=
  match reply with
  | ErrorField | Thrown =>
      finish tid (socket_emit sid (EvError "Failed to send message") σ)
  | Data _ =>
      finish tid (io_to_emit (Msg.room_id msg) (EvNewMessage msg) σ)
  end.

(** ** The event loop *)

(** What can happen next: a socket connects or disconnects, a client event
    arrives on an open socket ([now] is the clock the handler reads), Supabase
    serves a pending request, or a settled handler is resumed. *)
Inductive Action :=
| Connect (sid : string)
| Disconnect (sid : string)
| JoinRoom (sid roomId userEmail : string)
| SendMessage (sid roomId userEmail text : string) (now : N)
| StoreServe (tid : nat) (o : Outcome)
| Resume (tid : nat).

(** Supabase serves the request a parked handler is waiting on; whether it
    succeeds is not up to the server.  A [select] that succeeds reads the
    table as it is now; an [insert] that succeeds appends the row, and one
    that fails leaves the table as it is.  The handler is not resumed yet:
    replies may come back in any order. *)
Definition store_serve (tid : nat) (o : Outcome) (σ : State) : option State :=
  match tasks σ !! tid with
  | Some (JoinAwaitSelect sid roomId) =>
      let reply := match o with
                   | Succeed => Data (select_messages roomId (store σ))
                   | Fail => ErrorField
                   | Throw => Thrown
                   end in
      Some (set_task tid (JoinSelectDone sid roomId reply) σ)
  | Some (SendAwaitInsert sid msg) =>
      match o with
      | Succeed => Some (set_task tid (SendInsertDone sid msg (Data ())) (commit msg σ))
      | Fail => Some (set_task tid (SendInsertDone sid msg ErrorField) σ)
      | Throw => Some (set_task tid (SendInsertDone sid msg Thrown) σ)
      end
  | _ => None
  end.

(** The event loop runs the rest of a handler whose promise has settled, up
    to its next [await] or to its end. *)
Definition resume (tid : nat) (σ : State) : option State :=
  match tasks σ !! tid with
  | Some (JoinSelectDone sid roomId reply) =>
      Some (join_room_after_select tid sid roomId reply σ)
  | Some (JoinAwaitSockets sid roomId clients) =>
      Some (join_room_after_sockets tid roomId clients σ)
  | Some (SendInsertDone sid msg reply) =>
      Some (send_message_after_insert tid sid msg reply σ)
  | _ => None
  end.

Definition step (a : Action) (σ : State) : option State :=
  match a with
  | Connect sid =>
      if decide (sid ∈ seen σ) then None else Some (on_connection sid σ)
  | Disconnect sid =>
      if decide (sid ∈ connected σ) then Some (on_disconnect sid σ) else None
  | JoinRoom sid roomId userEmail =>
      if decide (sid ∈ connected σ)
      then Some (on_join_room sid roomId userEmail σ) else None
  | SendMessage sid roomId userEmail text now =>
      if decide (sid ∈ connected σ)
      then Some (on_send_message sid roomId userEmail text now σ) else None
  | StoreServe tid o => store_serve tid o σ
  | Resume tid => resume tid σ
  end.

Fixpoint run (acts : list Action) (σ : State) : option State :=
  match acts with
  | [] => Some σ
  | a :: rest =>
      match step a σ with
      | Some σ' => run rest σ'
      | None => None
      end
  end.

(** ** What a run shows *)

(** The [new-message] payloads a socket received for a room, oldest first. *)
Fixpoint observed (sid roomId : string) (tr : list Emission) : list Msg.t :=
  match tr with
  | [] => []
  | {| audience := aud; event := EvNewMessage m |} :: rest =>
      if decide (sid ∈ aud ∧ Msg.room_id m = roomId)
      then m :: observed sid roomId rest
      else observed sid roomId rest
  | _ :: rest => observed sid roomId rest
  end.

(** The [msg] a row was inserted from. *)
Definition row_msg (r : Message.t) : Msg.t :=
  {| Msg.room_id := Message.room_id r; Msg.user_email := Message.user_email r;
     Msg.text := Message.text r; Msg.created_at := Message.created_at r |}.

(** The messages of a room in the order the table committed them. *)
Definition committed (roomId : string) (tbl : list Message.t) : list Msg.t :=
  row_msg <$> filter (λ r, Message.room_id r = roomId) tbl.

(** ** Handlers run alone

    The actions of one handler from its event to its last line, with nothing
    else scheduled in between; [tid] is the slot the handler is parked in. *)

Definition send_alone
    (sid roomId userEmail text : string) (now : N) (o : Outcome) (tid : nat)
  : list Action :=
  [SendMessage sid roomId userEmail text now; StoreServe tid o; Resume tid].

Definition join_alone (sid roomId userEmail : string) (tid : nat)
  : list Action :=
  [JoinRoom sid roomId userEmail; StoreServe tid Succeed; Resume tid;
   Resume tid].

Definition join_failing
    (sid roomId userEmail : string) (o : Outcome) (tid : nat) : list Action :=
  [JoinRoom sid roomId userEmail; StoreServe tid o; Resume tid].

(** The error messages of the handlers. *)
Definition error_messages : list string :=
  ["Failed to load room history"; "Failed to join room";
   "Failed to send message"].

(** ** Invariants of the event loop *)

(** The socket a parked handler belongs to, and the room a parked
    [join-room] handler has joined. *)
Definition task_sid (t : Task) : string :=
  match t with
  | JoinAwaitSelect s _ | JoinSelectDone s _ _ | JoinAwaitSockets s _ _
  | SendAwaitInsert s _ | SendInsertDone s _ _ => s
  end.

Definition joining (t : Task) : option (string * string) :=
  match t with
  | JoinAwaitSelect s r | JoinSelectDone s r _ | JoinAwaitSockets s r _ =>
      Some (s, r)
  | _ => None
  end.

(** Whatever was broadcast, or is about to be, is in the table. *)
Definition persisted (σ : State) : Prop :=
  (∀ aud m, mkEmission aud (EvNewMessage m) ∈ trace σ →
            m ∈ row_msg <$> store σ)
  ∧ (∀ tid sid m, tasks σ !! tid = Some (SendInsertDone sid m (Data ())) →
                  m ∈ row_msg <$> store σ).

(** Rooms hold open sockets only, and a socket stays in the room it asked to
    join for as long as it is open. *)
Definition joined (σ : State) : Prop :=
  connected σ ⊆ seen σ
  ∧ (∀ tid t, tasks σ !! tid = Some t → task_sid t ∈ seen σ)
  ∧ (∀ tid t sid r, tasks σ !! tid = Some t → joining t = Some (sid, r) →
       sid ∈ connected σ → sid ∈ members r σ)
  ∧ (∀ r, members r σ ⊆ connected σ).

(** Every [error] event carries one of the three messages of the handlers. *)
Definition known_errors (σ : State) : Prop :=
  ∀ aud s, mkEmission aud (EvError s) ∈ trace σ → s ∈ error_messages.

(** ** Scenarios *)

(** The state after a run from the initial state (the initial state when the
    run is not possible). *)
Definition after (acts : list Action) : State := default init (run acts init).

Definition hi : Msg.t := Msg.mk "general" "alice@chat.io" "hi" 1000.
Definition there : Msg.t := Msg.mk "general" "alice@chat.io" "there" 1001.

(** Alice and Bob connect and join the room "general"; both joins run to
    their end. *)
Definition lobby_acts : list Action :=
  [Connect "alice"; Connect "bob"]
  ++ join_alone "alice" "general" "alice@chat.io" 0
  ++ join_alone "bob" "general" "bob@chat.io" 1.

Definition lobby : State := after lobby_acts.

(** Alice sends "hi" and then "there"; the table commits them in that order
    and the second insert returns first. *)
Definition racing_sends : list Action :=
  lobby_acts
  ++ [SendMessage "alice" "general" "alice@chat.io" "hi" 1000;
      SendMessage "alice" "general" "alice@chat.io" "there" 1001;
      StoreServe 2 Succeed; StoreServe 3 Succeed;
      Resume 3; Resume 2].

(** Alice sends an empty text and the table takes it. *)
Definition blank_send : list Action :=
  lobby_acts
  ++ send_alone "alice" "general" "alice@chat.io" EmptyString 1000 Succeed 2.

(** Alice and Bob are in "general" and in "random". *)
Definition two_rooms_acts : list Action :=
  lobby_acts ++ join_alone "alice" "random" "alice@chat.io" 2
  ++ join_alone "bob" "random" "bob@chat.io" 3.

Definition hello : Msg.t := Msg.mk "general" "carol@chat.io" "hello" 5.

(** Alice is in "general"; Carol is connected, has joined no room, and sends
    a message to "general". *)
Definition outsider_send : list Action :=
  [Connect "alice"; Connect "carol"]
  ++ join_alone "alice" "general" "alice@chat.io" 0
  ++ send_alone "carol" "general" "carol@chat.io" "hello" 5 Succeed 1.

(** The count of an [active-users] emission. *)
Definition recount_of (e : Emission) : option nat :=
  match event e with EvActiveUsers n => Some n | _ => None end.

(** * The rest of the server, and the client

    The HTTP routes of [index.ts] and the functions of the component [App]
    that talk to the server. *)

(** ** More about the event loop *)

(** A message some [send-message] event of the run asked to send. *)
Definition sent (acts : list Action) (m : Msg.t) : Prop :=
  ∃ sid, SendMessage sid (Msg.room_id m) (Msg.user_email m) (Msg.text m)
           (Msg.created_at m) ∈ acts.

(** Where the messages in the table, in the parked handlers and in the trace
    come from. *)
Definition provenance (acts : list Action) (σ : State) : Prop :=
  (∀ row, row ∈ store σ → sent acts (row_msg row))
  ∧ (∀ tid sid m, tasks σ !! tid = Some (SendAwaitInsert sid m) → sent acts m)
  ∧ (∀ tid sid m rp, tasks σ !! tid = Some (SendInsertDone sid m rp) →
       sent acts m)
  ∧ (∀ aud m, mkEmission aud (EvNewMessage m) ∈ trace σ → sent acts m).

(** An [error] or a [room-history] emission reached one socket at most. *)
Definition unicast (e : Emission) : Prop :=
  match event e with
  | EvError _ | EvRoomHistory _ => (size (audience e) ≤ 1)%nat
  | _ => True
  end.

(** Joins handled one after the other, each to its end; a request is the
    socket and the [userEmail] of its payload. *)
Fixpoint join_each (js : list (string * string)) (roomId : string) (σ : State)
  : option State :=
  match js with
  | [] => Some σ
  | j :: rest =>
      match run (join_alone j.1 roomId j.2 (next_task σ)) σ with
      | Some σ' => join_each rest roomId σ'
      | None => None
      end
  end.

(** The clock readings of the rows grow strictly in commit order. *)
Definition clock_increasing (tbl : list Message.t) : Prop :=
  StronglySorted (λ a b, (Message.created_at a < Message.created_at b)%N) tbl.

(** ** The HTTP routes *)

(** A row of the table [rooms]. *)
Module RoomRow.
Record t := mk {
  id : string;
  name : string;
  created_by : string;
  created_at : N
}.
End RoomRow.

(** The columns [id, name, created_at] the GET route selects; the client's
    [interface Room]. *)
Module Room.
Record t := mk {
  id : string;
  name : string;
  created_at : N
}.
End Room.

(** A row of the table [room_participants]. *)
Module Participant.
Record t := mk {
  room_id : string;
  user_email : string
}.
End Participant.

(** The tables [rooms] and [room_participants], rows in table order. *)
Record Db := mkDb {
  db_rooms : list RoomRow.t;
  db_participants : list Participant.t
}.

(** What a route answers: [res.json(body)] or
    [res.status(500).json({ error })]. *)
Inductive Response (A : Type) :=
| Json (body : A)
| Status500 (error : string).
Arguments Json {A} body.
Arguments Status500 {A} error.

(** [app.get('/api/rooms/:userEmail', ...)] (lines 33-62), given how its two
    queries settle: the first yields the [room_id] column of the user's
    participations, the second is asked for the rooms with those ids. *)
Definition get_rooms_handler
    (participations : Reply (option (list string)))
    (rooms_in : list string → Reply (option (list Room.t)))
  : Response (list Room.t) :=
  match participations with
  | ErrorField | Thrown => Status500 "Failed to fetch rooms"
  | Data None | Data (Some []) => Json []
  | Data (Some roomIds) =>
      match rooms_in roomIds with
      | ErrorField | Thrown => Status500 "Failed to fetch rooms"
      | Data rooms => Json (default [] rooms)
      end
  end.

(** [.from('room_participants').select('room_id').eq('user_email', userEmail)] *)
Definition select_participations (userEmail : string) (db : Db) : list string :=
  Participant.room_id
    <$> filter (λ p, Participant.user_email p = userEmail) (db_participants db).

Definition room_view (r : RoomRow.t) : Room.t :=
  {| Room.id := RoomRow.id r; Room.name := RoomRow.name r;
     Room.created_at := RoomRow.created_at r |}.

(** [.from('rooms').select('id, name, created_at').in('id', roomIds)] *)
Definition select_rooms_in (roomIds : list string) (db : Db) : list Room.t :=
  room_view <$> filter (λ r, RoomRow.id r ∈ roomIds) (db_rooms db).

(** What a query that would yield [a] settles with. *)
Definition settle {A} (o : Outcome) (a : A) : Reply (option A) :=
  match o with
  | Succeed => Data (Some a)
  | Fail => ErrorField
  | Throw => Thrown
  end.

(** The GET route against the tables, both queries reading the same state of
    the tables. *)
Definition get_rooms (userEmail : string) (o1 o2 : Outcome) (db : Db)
  : Response (list Room.t) :=
  get_rooms_handler (settle o1 (select_participations userEmail db))
    (λ roomIds, settle o2 (select_rooms_in roomIds db)).

(** The body of [POST /api/rooms]. *)
Record CreateRoom := mkCreateRoom {
  cr_name : string;
  createdBy : string;
  creatorEmail : string;
  cr_participants : list string
}.

(** The payload of [new-room]. *)
Record NewRoom := mkNewRoom {
  nr_room : RoomRow.t;
  nr_participants : list Participant.t
}.

(** What handling a POST leaves: the answer, the tables, and the [new-room]
    emitted with the sockets it reached, if any. *)
Record Posted := mkPosted {
  response : Response RoomRow.t;
  db_after : Db;
  new_room : option (gset string * NewRoom)
}.

(** [app.post('/api/rooms', ...)] (lines 64-97).  [id] and [created_at] are
    the values the table [rooms] gives the new row, [o1] and [o2] say how the
    two inserts settle, and [socks] are the sockets open when [io.emit]
    runs. *)
Definition post_rooms
    (body : CreateRoom) (id : string) (created_at : N) (o1 o2 : Outcome)
    (socks : gset string) (db : Db) : Posted :=
  match o1 with
  | Succeed =>
      let room := RoomRow.mk id (cr_name body) (createdBy body) created_at in
      let db1 := {| db_rooms := db_rooms db ++ [room];
                    db_participants := db_participants db |} in
      let allParticipants :=
        (λ email, Participant.mk (RoomRow.id room) email)
          <$> (cr_participants body ++ [creatorEmail body]) in
      match o2 with
      | Succeed =>
          {| response := Json room;
             db_after := {| db_rooms := db_rooms db1;
                            db_participants :=
                              db_participants db1 ++ allParticipants |};
             new_room := Some (socks, mkNewRoom room allParticipants) |}
      | _ =>
          {| response := Status500 "Failed to create room";
             db_after := db1; new_room := None |}
      end
  | _ =>
      {| response := Status500 "Failed to create room";
         db_after := db; new_room := None |}
  end.

(** The client's [handleNewRoom] (part_000, lines 62-66): whether it calls
    [fetchUserRooms]. *)
Definition handleNewRoom (userEmail : string) (data : NewRoom) : bool :=
  bool_decide (Exists (λ p, Participant.user_email p = userEmail)
                 (nr_participants data)).

(** ** The client's string handling

    A string is its sequence of code units, here those below 256.  The
    white space and line terminators [trim] removes are, in that range, tab,
    line feed, vertical tab, form feed, carriage return, space and no-break
    space. *)
Definition is_space (c : ascii) : bool :=
  match N_of_ascii c with
  | 9 | 10 | 11 | 12 | 13 | 32 | 160 => true
  | _ => false
  end%N.

Fixpoint trimStart (s : string) : string :=
  match s with
  | EmptyString => EmptyString
  | String c s' => if is_space c then trimStart s' else s
  end.

Fixpoint trimEnd (s : string) : string :=
  match s with
  | EmptyString => EmptyString
  | String c s' =>
      match trimEnd s' with
      | EmptyString => if is_space c then EmptyString else String c EmptyString
      | t => String c t
      end
  end.

(** [s.trim()] *)
Definition trim (s : string) : string := trimEnd (trimStart s).

(** [s.split(sep)] for a separator of one code unit. *)
Fixpoint split (sep : ascii) (s : string) : list string :=
  match s with
  | EmptyString => [EmptyString]
  | String c s' =>
      if decide (c = sep) then EmptyString :: split sep s'
      else match split sep s' with
           | piece :: pieces => String c piece :: pieces
           | [] => [String c EmptyString]
           end
  end.

Fixpoint contains (c : ascii) (s : string) : bool :=
  match s with
  | EmptyString => false
  | String c' s' => bool_decide (c' = c) || contains c s'
  end.

Fixpoint all_space (s : string) : bool :=
  match s with
  | EmptyString => true
  | String c s' => is_space c && all_space s'
  end.

(** [participants.split(',').map(email => email.trim()).filter(email => email)]
    (part_000, lines 131-134). *)
Definition participantEmails (participants : string) : list string :=
  filter (λ email, email ≠ EmptyString) (trim <$> split ","%char participants).

(** An address as [participantEmails] yields them. *)
Definition tidy (email : string) : Prop :=
  email ≠ EmptyString ∧ trim email = email ∧ contains ","%char email = false.

(** The state of the component [App] (part_000, lines 22-31) that the
    functions below read or write, with [user.email] and [user.id] of the
    signed-in user and whether a [once] listener for [room-history] is
    registered on the socket. *)
Module Client.
Record t := mk {
  email : string;
  user_id : string;
  selectedRoom : option Room.t;
  messages : list Message.t;
  newMessage : string;
  showCreateRoom : bool;
  newRoomName : string;
  participants : string;
  history_listener : bool
}.
End Client.

(** [selectRoom] (lines 159-173): the new state and the payload of the
    [join-room] it emits. *)
Definition selectRoom (room : Room.t) (c : Client.t)
  : Client.t * (string * string) :=
  ({| Client.email := Client.email c; Client.user_id := Client.user_id c;
      Client.selectedRoom := Some room; Client.messages := [];
      Client.newMessage := Client.newMessage c;
      Client.showCreateRoom := Client.showCreateRoom c;
      Client.newRoomName := Client.newRoomName c;
      Client.participants := Client.participants c;
      Client.history_listener := true |},
   (Room.id room, Client.email c)).

(** A [room-history] event arrives: the [once] listener, if there is one,
    runs [setMessages(history || [])] and is gone (lines 170-172). *)
Definition onRoomHistory (history : list Message.t) (c : Client.t) : Client.t :=
  if Client.history_listener c then
    {| Client.email := Client.email c; Client.user_id := Client.user_id c;
       Client.selectedRoom := Client.selectedRoom c;
       Client.messages := history;
       Client.newMessage := Client.newMessage c;
       Client.showCreateRoom := Client.showCreateRoom c;
       Client.newRoomName := Client.newRoomName c;
       Client.participants := Client.participants c;
       Client.history_listener := false |}
  else c.

(** The client's [sendMessage] (lines 175-185): the new state and the
    payload [(roomId, userEmail, text)] of the [send-message] it emits, if
    any. *)
Definition sendMessage (c : Client.t)
  : Client.t * option (string * string * string) :=
  if decide (trim (Client.newMessage c) = EmptyString) then (c, None)
  else
    match Client.selectedRoom c with
    | None => (c, None)
    | Some room =>
        ({| Client.email := Client.email c; Client.user_id := Client.user_id c;
            Client.selectedRoom := Client.selectedRoom c;
            Client.messages := Client.messages c;
            Client.newMessage := EmptyString;
            Client.showCreateRoom := Client.showCreateRoom c;
            Client.newRoomName := Client.newRoomName c;
            Client.participants := Client.participants c;
            Client.history_listener := Client.history_listener c |},
         Some (Room.id room, Client.email c, Client.newMessage c))
    end.

(** The client's [createRoom] (lines 126-157), up to the request: the body
    it posts, if any. *)
Definition createRoom (c : Client.t) : option CreateRoom :=
  if decide (trim (Client.newRoomName c) = EmptyString) then None
  else Some {| cr_name := Client.newRoomName c;
               createdBy := Client.user_id c;
               creatorEmail := Client.email c;
               cr_participants := participantEmails (Client.participants c) |}.

(** The [room-history] payloads the server emitted to a socket, oldest
    first, handed to the client in that order. *)
Fixpoint deliver_history (sid : string) (tr : list Emission) (c : Client.t)
  : Client.t :=
  match tr with
  | [] => c
  | {| audience := aud; event := EvRoomHistory h |} :: rest =>
      if decide (sid ∈ aud) then deliver_history sid rest (onRoomHistory h c)
      else deliver_history sid rest c
  | _ :: rest => deliver_history sid rest c
  end.

(** ** More scenarios *)

(** The state a run from [σ] ends in ([σ] itself when the run is not
    possible). *)
Definition run_on (σ : State) (acts : list Action) : State :=
  default σ (run acts σ).

(** Alice sends "hi", Bob sends "there", one after the other. *)
Definition chatting : State :=
  run_on lobby
    (send_alone "alice" "general" "alice@chat.io" "hi" 1000 Succeed 2
     ++ send_alone "bob" "general" "bob@chat.io" "there" 1001 Succeed 3).

(** Two rooms, the first with Alice and Bob in it. *)
Definition two_rooms_db : Db :=
  {| db_rooms := [RoomRow.mk "r1" "general" "u-alice" 10;
                  RoomRow.mk "r2" "random" "u-bob" 20];
     db_participants := [Participant.mk "r1" "alice@chat.io";
                         Participant.mk "r1" "bob@chat.io";
                         Participant.mk "r2" "bob@chat.io"] |}.

Definition team_room : CreateRoom :=
  {| cr_name := "team"; createdBy := "u-alice";
     creatorEmail := "alice@chat.io";
     cr_participants := ["bob@chat.io"; "carol@chat.io"] |}.

(** Alice's client, a room name and two addresses typed in. *)
Definition alice_client : Client.t :=
  {| Client.email := "alice@chat.io"; Client.user_id := "u-alice";
     Client.selectedRoom := None; Client.messages := [];
     Client.newMessage := " hi "; Client.showCreateRoom := true;
     Client.newRoomName := "team";
     Client.participants := "bob@chat.io, carol@chat.io";
     Client.history_listener := false |}.

(** ** Order and accounting of the messages *)

(** The [new-message] payloads emitted for a room, oldest first, whoever
    received them. *)
Fixpoint broadcast (roomId : string) (tr : list Emission) : list Msg.t :=
  match tr with
  | [] => []
  | {| event := EvNewMessage m |} :: rest =>
      if decide (Msg.room_id m = roomId) then m :: broadcast roomId rest
      else broadcast roomId rest
  | _ :: rest => broadcast roomId rest
  end.

(** A parked [send-message] for the room whose insert has succeeded and
    whose broadcast is still to come. *)
Definition in_flight (roomId : string) (t : Task) : bool :=
  match t with
  | SendInsertDone _ m (Data _) => bool_decide (Msg.room_id m = roomId)
  | _ => false
  end.

(** No send to the room is between its commit and its broadcast. *)
Definition quiet (roomId : string) (σ : State) : Prop :=
  map_Forall (λ _ t, in_flight roomId t = false) (tasks σ).

#[global] Instance quiet_dec roomId σ : Decision (quiet roomId σ).
Proof. unfold quiet. apply _. Defined.

(** The step is the table committing a message of the room. *)
Definition commits (roomId : string) (a : Action) (σ : State) : bool :=
  match a with
  | StoreServe tid Succeed =>
      match tasks σ !! tid with
      | Some (SendAwaitInsert _ m) => bool_decide (Msg.room_id m = roomId)
      | _ => false
      end
  | _ => false
  end.

(** The message the step hands to the room: that of a [send-message] that
    resumes after its insert has succeeded. *)
Definition returns (roomId : string) (a : Action) (σ : State) : list Msg.t :=
  match a with
  | Resume tid =>
      match tasks σ !! tid with
      | Some (SendInsertDone _ m (Data _)) =>
          if decide (Msg.room_id m = roomId) then [m] else []
      | _ => []
      end
  | _ => []
  end.

(** The messages of the room in the order their inserts return during a
    run. *)
Fixpoint returned (roomId : string) (acts : list Action) (σ : State)
  : list Msg.t :=
  match acts with
  | [] => []
  | a :: rest =>
      returns roomId a σ
      ++ match step a σ with
         | Some σ' => returned roomId rest σ'
         | None => []
         end
  end.

(** In the run, the table commits a message of the room only when no other
    send to that room is between its commit and its broadcast.  Nothing is
    asked of the other rooms, nor of any other action. *)
Fixpoint one_at_a_time (roomId : string) (acts : list Action) (σ : State)
  : bool :=
  match acts with
  | [] => true
  | a :: rest =>
      (negb (commits roomId a σ) || bool_decide (quiet roomId σ))
      && match step a σ with
         | Some σ' => one_at_a_time roomId rest σ'
         | None => true
         end
  end.

(** The table's rows of the room are those broadcast, in that order, and
    after them the one whose broadcast is still to come, if any. *)
Definition lined_up (roomId : string) (σ : State) : Prop :=
  ∃ pend,
    committed roomId (store σ) = broadcast roomId (trace σ) ++ pend
    ∧ ((pend = [] ∧ quiet roomId σ)
       ∨ ∃ tid sid m,
           pend = [m]
           ∧ tasks σ !! tid = Some (SendInsertDone sid m (Data ()))
           ∧ Msg.room_id m = roomId
           ∧ ∀ tid' t, tasks σ !! tid' = Some t →
                       in_flight roomId t = true → tid' = tid).

Definition x_msg : Msg.t := Msg.mk "random" "bob@chat.io" "x" 1001.
Definition y_msg : Msg.t := Msg.mk "random" "bob@chat.io" "y" 1002.

(** Alice and Bob are in "general" and in "random".  Alice sends "hi" and,
    once it is broadcast, "there" to "general"; meanwhile Bob's "x" and "y"
    to "random" are both committed before either is broadcast, and "y" is
    broadcast first. *)
Definition crossing_sends : list Action :=
  [SendMessage "alice" "general" "alice@chat.io" "hi" 1000;
   SendMessage "bob" "random" "bob@chat.io" "x" 1001;
   SendMessage "bob" "random" "bob@chat.io" "y" 1002;
   StoreServe 4 Succeed; StoreServe 5 Succeed; StoreServe 6 Succeed;
   Resume 6; Resume 4;
   SendMessage "alice" "general" "alice@chat.io" "there" 1001;
   Resume 5; StoreServe 7 Succeed; Resume 7].

(** Every parked handler sits in a slot below the next free one. *)
Definition slots_below (σ : State) : Prop :=
  ∀ tid t, tasks σ !! tid = Some t → tid < next_task σ.

(** The [new-message] payloads emitted so far, oldest first. *)
Definition broadcasts (tr : list Emission) : list Msg.t :=
  omap (λ e, match event e with EvNewMessage m => Some m | _ => None end) tr.

(** The message of a parked [send-message] whose insert has succeeded. *)
Definition done_msg (t : Task) : option Msg.t :=
  match t with
  | SendInsertDone _ m (Data _) => Some m
  | _ => None
  end.

(** The messages stored and not yet broadcast: those of the handlers parked
    with a successful insert. *)
Definition pending (ts : gmap nat Task) : list Msg.t :=
  omap (λ kt, done_msg kt.2) (map_to_list ts).

(** Row for row, the table holds the messages that were broadcast and those
    whose handlers have their successful insert behind them and their
    broadcast ahead. *)
Definition accounted (σ : State) : Prop :=
  row_msg <$> store σ ≡ₚ broadcasts (trace σ) ++ pending (tasks σ).

Definition late : Msg.t := Msg.mk "general" "bob@chat.io" "late" 1003.

(** In the room of Alice and Bob: "hi" has been stored and broadcast; the
    insert of "there" has failed and its handler is parked (slot 3); "yo"
    awaits its insert (slot 4); "late" is stored and its handler is parked
    before its broadcast (slot 5). *)
Definition sends_in_progress : list Action :=
  lobby_acts
  ++ send_alone "alice" "general" "alice@chat.io" "hi" 1000 Succeed 2
  ++ [SendMessage "alice" "general" "alice@chat.io" "there" 1001;
      StoreServe 3 Fail;
      SendMessage "bob" "general" "bob@chat.io" "yo" 1002;
      SendMessage "bob" "general" "bob@chat.io" "late" 1003;
      StoreServe 5 Succeed].

(** From the room with "hi" and "there" stored: two more sends, one whose
    insert fails and one whose insert succeeds, and a disconnect. *)
Definition more_sends : list Action :=
  [SendMessage "alice" "general" "alice@chat.io" "more" 1002;
   SendMessage "bob" "general" "bob@chat.io" "again" 1003;
   StoreServe 4 Fail; StoreServe 5 Succeed; Resume 5; Resume 4;
   Disconnect "alice"].

(** ** Proof steps *)

(** One goal per synchronous segment of the handlers. *)
Ltac step_cases Hs :=
  match type of Hs with
  | step ?a ?σ = Some _ =>
      destruct a as [sid|sid|sid r e|sid r e txt now|tid o|tid];
      unfold step in Hs;
      [ case_decide; simplify_eq
      | case_decide; simplify_eq
      | case_decide; simplify_eq
      | case_decide; simplify_eq
      | unfold store_serve in Hs;
        destruct (tasks σ !! tid) as [[s r|s r rp|s r cl|s m|s m rp]|] eqn:Ht;
        try done; [simplify_eq | destruct o; simplify_eq]
      | unfold resume in Hs;
        destruct (tasks σ !! tid) as [[s r|s r rp|s r cl|s m|s m rp]|] eqn:Ht;
        try done; simplify_eq;
        [destruct rp as [msgs| |] | | destruct rp as [[]| |]] ]
  end.

(** An emission of the new trace is an old one or the one just logged. *)
Ltac old_or_new H :=
  simpl in H; apply elem_of_app in H as [H|H];
  [ eauto | apply list_elem_of_singleton in H; simplify_eq; eauto ].

(** Look a slot up after the segment has rewritten or freed a slot. *)
Ltac slot_lookup :=
  simpl; first [rewrite lookup_insert | rewrite lookup_delete | idtac];
  try case_decide.

Ltac slot_lookup_in H :=
  simpl in H;
  first [rewrite lookup_insert in H | rewrite lookup_delete in H | idtac];
  try case_decide.

(** * Properties *)

Section Adapter.
Implicit Types (σ : State) (sid roomId : string).

Lemma members_socket_join sid roomId r σ :
  members r (socket_join sid roomId σ)
  = if decide (roomId = r) then {[sid]} ∪ members roomId σ else members r σ.
Proof.
  unfold members at 1. simpl. rewrite lookup_insert.
  destruct (decide (roomId = r)); reflexivity.
Qed.

Lemma members_on_disconnect sid r σ :
  members r (on_disconnect sid σ) = members r σ ∖ {[sid]}.
Proof.
  unfold members, on_disconnect, leave_all. simpl. rewrite lookup_omap.
  destruct (rooms σ !! r) as [s|]; simpl; [|set_solver].
  unfold leave. destruct (decide (s ∖ {[sid]} = ∅)) as [He|He]; simpl.
  - by rewrite He.
  - reflexivity.
Qed.

Lemma leave_all_idemp sid (rs : gmap string (gset string)) :
  leave_all sid (leave_all sid rs) = leave_all sid rs.
Proof.
  apply map_eq. intros r. unfold leave_all. rewrite !lookup_omap.
  destruct (rs !! r) as [s|]; simpl; [|done].
  unfold leave at 2 3. destruct (decide (s ∖ {[sid]} = ∅)) as [He|He]; simpl.
  - reflexivity.
  - unfold leave.
    replace (s ∖ {[sid]} ∖ {[sid]}) with (s ∖ {[sid]}) by set_solver.
    by rewrite decide_False.
Qed.
End Adapter.

(** ** The table *)

Section Table.
Implicit Types (roomId : string) (tbl : list Message.t).

#[local] Instance created_le_total : Total created_le.
Proof. intros a b. unfold created_le. lia. Qed.

#[local] Instance created_le_trans : Transitive created_le.
Proof. intros a b c. unfold created_le. lia. Qed.

Lemma select_messages_perm roomId tbl :
  select_messages roomId tbl ≡ₚ filter (λ r, Message.room_id r = roomId) tbl.
Proof. apply merge_sort_Permutation. Qed.

Lemma select_messages_sorted roomId tbl :
  StronglySorted created_le (select_messages roomId tbl).
Proof. apply (StronglySorted_merge_sort created_le). Qed.

Lemma select_messages_elem roomId tbl row :
  row ∈ select_messages roomId tbl ↔ Message.room_id row = roomId ∧ row ∈ tbl.
Proof. by rewrite select_messages_perm, list_elem_of_filter. Qed.
End Table.

(** ** Handlers run alone: what they leave behind *)

Section Alone.
Implicit Types (σ : State) (sid roomId userEmail text : string) (now : N).

Lemma run_app acts1 acts2 σ :
  run (acts1 ++ acts2) σ = run acts1 σ ≫= run acts2.
Proof.
  revert σ. induction acts1 as [|a acts1 IH]; intros σ; simpl; [done|].
  destruct (step a σ); simpl; [apply IH|done].
Qed.

Lemma send_alone_succeed σ sid roomId userEmail text now :
  sid ∈ connected σ →
  let msg := Msg.mk roomId userEmail text now in
  ∃ σ', run (send_alone sid roomId userEmail text now Succeed (next_task σ)) σ
        = Some σ'
    ∧ seen σ' = seen σ ∧ connected σ' = connected σ ∧ rooms σ' = rooms σ
    ∧ store σ' = store σ ++ [insert_row msg (store σ)]
    ∧ next_task σ' = S (next_task σ)
    ∧ trace σ' = trace σ ++ [mkEmission (members roomId σ) (EvNewMessage msg)].
Proof.
  intros Hc msg. eexists. split.
  - unfold send_alone, run, step. rewrite decide_True by done.
    unfold on_send_message, store_serve, park. simpl.
    rewrite lookup_insert_eq. simpl.
    unfold resume. simpl. rewrite lookup_insert_eq. reflexivity.
  - simpl. repeat split; reflexivity.
Qed.

Lemma send_alone_fails σ sid roomId userEmail text now o :
  sid ∈ connected σ → o ≠ Succeed →
  ∃ σ', run (send_alone sid roomId userEmail text now o (next_task σ)) σ
        = Some σ'
    ∧ seen σ' = seen σ ∧ connected σ' = connected σ ∧ rooms σ' = rooms σ
    ∧ store σ' = store σ
    ∧ next_task σ' = S (next_task σ)
    ∧ trace σ' = trace σ
                 ++ [mkEmission {[sid]} (EvError "Failed to send message")].
Proof.
  intros Hc Ho. destruct o; [done| |].
  all: eexists; split;
    [ unfold send_alone, run, step; rewrite decide_True by done;
      unfold on_send_message, store_serve, park; simpl;
      rewrite lookup_insert_eq; simpl;
      unfold resume; simpl; rewrite lookup_insert_eq; reflexivity
    | simpl; rewrite decide_True by done; repeat split; reflexivity ].
Qed.

Lemma join_alone_run σ sid roomId userEmail :
  sid ∈ connected σ →
  let now_in := {[sid]} ∪ members roomId σ in
  ∃ σ', run (join_alone sid roomId userEmail (next_task σ)) σ = Some σ'
    ∧ seen σ' = seen σ ∧ connected σ' = connected σ
    ∧ rooms σ' = <[roomId := now_in]> (rooms σ)
    ∧ store σ' = store σ
    ∧ next_task σ' = S (next_task σ)
    ∧ tasks σ' !! next_task σ = None
    ∧ trace σ' = trace σ
        ++ [mkEmission {[sid]}
              (EvRoomHistory (select_messages roomId (store σ)));
            mkEmission now_in (EvActiveUsers (size now_in))].
Proof.
  intros Hc now_in. eexists. split.
  - unfold join_alone, run, step. rewrite decide_True by done.
    unfold on_join_room, store_serve, park. simpl.
    rewrite lookup_insert_eq. simpl.
    unfold resume. simpl. rewrite lookup_insert_eq. simpl.
    rewrite lookup_insert_eq. reflexivity.
  - simpl. rewrite decide_True by done. rewrite lookup_delete_eq.
    unfold members. simpl. rewrite lookup_insert_eq. simpl.
    rewrite <- app_assoc. repeat split; reflexivity.
Qed.

Lemma join_failing_run σ sid roomId userEmail o :
  sid ∈ connected σ → o ≠ Succeed →
  ∃ σ', run (join_failing sid roomId userEmail o (next_task σ)) σ = Some σ'
    ∧ seen σ' = seen σ ∧ connected σ' = connected σ
    ∧ rooms σ' = rooms (socket_join sid roomId σ)
    ∧ store σ' = store σ
    ∧ tasks σ' !! next_task σ = None
    ∧ trace σ' = trace σ
        ++ [mkEmission {[sid]}
              (EvError match o with
                       | Throw => "Failed to join room"
                       | _ => "Failed to load room history"
                       end)].
Proof.
  intros Hc Ho. destruct o; [done| |].
  all: eexists; split;
    [ unfold join_failing, run, step; rewrite decide_True by done;
      unfold on_join_room, store_serve, park; simpl;
      rewrite lookup_insert_eq; simpl;
      unfold resume; simpl; rewrite lookup_insert_eq; reflexivity
    | simpl; rewrite decide_True by done; rewrite lookup_delete_eq;
      repeat split; reflexivity ].
Qed.
End Alone.


(** ** Invariants *)

Section Invariants.
Implicit Types (σ : State) (a : Action).

Lemma run_invariant (P : State → Prop) :
  (∀ a σ σ', step a σ = Some σ' → P σ → P σ') →
  ∀ acts σ σ', P σ → run acts σ = Some σ' → P σ'.
Proof.
  intros Hstep acts. induction acts as [|a acts IH]; intros σ σ' HP Hrun.
  - simpl in Hrun. by simplify_eq.
  - simpl in Hrun. destruct (step a σ) as [σ1|] eqn:Ha; [|done].
    eapply IH; [|exact Hrun]. eauto.
Qed.

Lemma row_msg_insert_row m tbl : row_msg (insert_row m tbl) = m.
Proof. by destruct m. Qed.

Lemma persisted_step a σ σ' : step a σ = Some σ' → persisted σ → persisted σ'.
Proof.
  intros Hs [Htr Htk]. step_cases Hs.
  all: try (split;
    [ first [exact Htr | intros aud m' H; old_or_new H]
    | intros tid' s' m'; slot_lookup; first [done | apply Htk] ]; fail).
  (* the insert commits *)
  split.
  - intros aud m' H. simpl in *. rewrite fmap_app, elem_of_app. eauto.
  - intros tid' s' m'. slot_lookup; rewrite fmap_app, elem_of_app.
    + intros ?; simplify_eq. right. simpl. rewrite row_msg_insert_row.
      by apply list_elem_of_singleton.
    + eauto.
Qed.

Lemma persisted_reachable acts σ : run acts init = Some σ → persisted σ.
Proof.
  apply (run_invariant persisted persisted_step). split.
  - intros aud m H. by apply elem_of_nil in H.
  - intros tid sid m H. simpl in H. by rewrite lookup_empty in H.
Qed.

Lemma known_errors_step a σ σ' :
  step a σ = Some σ' → known_errors σ → known_errors σ'.
Proof.
  intros Hs Hk. step_cases Hs; try exact Hk.
  all: intros aud s' H; old_or_new H; unfold error_messages; set_solver.
Qed.

Lemma known_errors_reachable acts σ : run acts init = Some σ → known_errors σ.
Proof.
  apply (run_invariant known_errors known_errors_step).
  intros aud s H. by apply elem_of_nil in H.
Qed.

Lemma joining_sid t s r : joining t = Some (s, r) → task_sid t = s.
Proof. destruct t; simpl; intros; by simplify_eq. Qed.

Lemma members_on_connection sid r σ :
  members r (on_connection sid σ)
  = if decide (sid = r) then {[sid]} ∪ members sid σ else members r σ.
Proof. unfold on_connection. by rewrite members_socket_join. Qed.

Lemma joined_step a σ σ' : step a σ = Some σ' → joined σ → joined σ'.
Proof.
  intros Hs (Hcs & Hts & Hjm & Hmc). step_cases Hs.
  (* segments that touch the parked handlers only *)
  all: try (split; [done|]; split; [|split]; [| |done];
    [ intros tid' t; slot_lookup;
      first [ done | intros ?; simplify_eq; simpl; first
                [ apply (Hts _ _ Ht) | set_solver ] | apply Hts ]
    | intros tid' t s' r' Ht' Hj Hc; slot_lookup_in Ht'; simplify_eq;
      try (simpl in Hj; simplify_eq); eapply Hjm; eauto; done ]; fail).
  - (* connection *)
    split; [simpl; set_solver|]. split; [|split].
    + intros tid t Ht. simpl in *. apply Hts in Ht. set_solver.
    + intros tid t s r Ht Hj Hc. rewrite members_on_connection.
      simpl in Ht, Hc.
      assert (s ≠ sid)
        by (intros ->; apply Hts in Ht;
            by rewrite (joining_sid _ _ _ Hj) in Ht).
      assert (s ∈ members r σ) by (eapply Hjm; eauto; set_solver).
      case_decide; subst; [apply elem_of_union_r|]; done.
    + intros r. rewrite members_on_connection. simpl.
      pose proof (Hmc r). pose proof (Hmc sid).
      case_decide; subst; set_solver.
  - (* disconnect *)
    split; [simpl; set_solver|]. split; [|split].
    + intros tid t Ht. simpl in *. eauto.
    + intros tid t s r Ht Hj Hc. rewrite members_on_disconnect.
      simpl in Ht, Hc. apply elem_of_difference in Hc as [Hc Hne].
      apply elem_of_difference. split; [eauto|done].
    + intros r. rewrite members_on_disconnect. simpl.
      specialize (Hmc r). set_solver.
  - (* join-room *)
    split; [done|]. split; [|split].
    + intros tid t. slot_lookup.
      * intros ?; simplify_eq. simpl. set_solver.
      * apply Hts.
    + intros tid t s r' Ht Hj Hc. unfold on_join_room.
      change (members r' (park ?t ?σ)) with (members r' σ).
      rewrite members_socket_join. slot_lookup_in Ht.
      * simplify_eq. simpl in Hj. simplify_eq. rewrite decide_True by done.
        set_solver.
      * assert (s ∈ members r' σ) by eauto.
        case_decide; subst; [apply elem_of_union_r|]; done.
    + intros r'. unfold on_join_room.
      change (members r' (park ?t ?σ)) with (members r' σ).
      rewrite members_socket_join. simpl.
      pose proof (Hmc r). pose proof (Hmc r').
      case_decide; subst; set_solver.
Qed.

Lemma joined_reachable acts σ : run acts init = Some σ → joined σ.
Proof.
  apply (run_invariant joined joined_step).
  split; [done|]. split; [|split].
  - intros tid t H. simpl in H. by rewrite lookup_empty in H.
  - intros tid t sid r H. simpl in H. by rewrite lookup_empty in H.
  - intros r. unfold members. simpl. rewrite lookup_empty. simpl. set_solver.
Qed.
End Invariants.

(** ** What sockets observe *)

Section Observing.
Implicit Types (σ : State) (sid roomId : string) (tr : list Emission).

Lemma observed_app sid roomId tr1 tr2 :
  observed sid roomId (tr1 ++ tr2)
  = observed sid roomId tr1 ++ observed sid roomId tr2.
Proof.
  induction tr1 as [|[aud ev] tr1 IH]; simpl; [done|].
  destruct ev; try done. case_decide; simpl; by rewrite IH.
Qed.

Lemma observed_new_message sid roomId aud m :
  observed sid roomId [mkEmission aud (EvNewMessage m)]
  = if decide (sid ∈ aud ∧ Msg.room_id m = roomId) then [m] else [].
Proof. reflexivity. Qed.
End Observing.

(** * The claims *)

Section Claims.
Implicit Types (σ : State) (sid roomId userEmail text : string) (now : N).

(** C1, as stated, fails: Alice sends "hi" and then "there" to "general";
    the table commits "hi" first, the insert of "there" returns first, and
    Bob, a member throughout, receives "there" before "hi". *)
Lemma racing_sends_out_of_order :
  (σ ← run racing_sends init;
   Some (members "general" σ, committed "general" (store σ),
         observed "bob" "general" (trace σ)))
  = Some ({["alice"; "bob"]}, [hi; there], [there; hi]).
Proof. vm_compute. reflexivity. Qed.

(** C2, as stated, fails: Alice, in "general" with Bob, sends the empty text;
    the table takes the row, and the message is stored and broadcast to both:
    no error event, and two side effects. *)
Lemma blank_send_stored_and_broadcast :
  (σ ← run blank_send init;
   Some (store σ, drop (length (trace lobby)) (trace σ)))
  = Some ([Message.mk 1 "general" "alice@chat.io" EmptyString 1000],
          [mkEmission {["alice"; "bob"]}
             (EvNewMessage
                (Msg.mk "general" "alice@chat.io" EmptyString 1000))]).
Proof. vm_compute. reflexivity. Qed.

(** C2, amended: the handler checks neither [text] nor [roomId]; whatever
    they are, the send goes to the table, and the table's answer alone decides:
    on success the row is stored and the message broadcast to the room, on
    failure the sender alone gets an error event and nothing is stored or
    broadcast. *)
Theorem send_message_validates_nothing σ sid roomId userEmail text now o :
  sid ∈ connected σ →
  let msg := Msg.mk roomId userEmail text now in
  ∃ σ', run (send_alone sid roomId userEmail text now o (next_task σ)) σ
        = Some σ'
    ∧ rooms σ' = rooms σ
    ∧ match o with
      | Succeed =>
          store σ' = store σ ++ [insert_row msg (store σ)]
          ∧ trace σ' = trace σ
                       ++ [mkEmission (members roomId σ) (EvNewMessage msg)]
      | _ =>
          store σ' = store σ
          ∧ trace σ' = trace σ
              ++ [mkEmission {[sid]} (EvError "Failed to send message")]
      end.
Proof.
  intros Hc msg. destruct o.
  - destruct (send_alone_succeed σ sid roomId userEmail text now Hc)
      as (σ' & Hrun & _ & _ & Hrooms & Hstore & _ & Htrace).
    by exists σ'.
  - destruct (send_alone_fails σ sid roomId userEmail text now Fail Hc)
      as (σ' & Hrun & _ & _ & Hrooms & Hstore & _ & Htrace); [done|].
    by exists σ'.
  - destruct (send_alone_fails σ sid roomId userEmail text now Throw Hc)
      as (σ' & Hrun & _ & _ & Hrooms & Hstore & _ & Htrace); [done|].
    by exists σ'.
Qed.

Lemma send_message_validates_nothing_witness :
  "alice" ∈ connected lobby
  ∧ ∃ σ', run (send_alone "alice" "nowhere" "alice@chat.io" EmptyString 7
                 Succeed (next_task lobby)) lobby = Some σ'
      ∧ rooms σ' = rooms lobby
      ∧ store σ' = store lobby
          ++ [insert_row (Msg.mk "nowhere" "alice@chat.io" EmptyString 7)
                (store lobby)]
      ∧ trace σ' = trace lobby
          ++ [mkEmission (members "nowhere" lobby)
                (EvNewMessage
                   (Msg.mk "nowhere" "alice@chat.io" EmptyString 7))].
Proof.
  assert (H : "alice" ∈ connected lobby) by (vm_compute; reflexivity).
  exact (conj H (send_message_validates_nothing
                   lobby "alice" "nowhere" "alice@chat.io" EmptyString 7
                   Succeed H)).
Defined.

(** C3, as stated, fails: when Alice's connection drops, the members of
    "general" change from Alice and Bob to Bob alone, and nothing at all is
    emitted: Bob is sent no [active-users] event. *)
Lemma disconnect_broadcasts_no_count :
  (σ ← run (lobby_acts ++ [Disconnect "alice"]) init;
   Some (members "general" lobby, members "general" σ,
         drop (length (trace lobby)) (trace σ)))
  = Some ({["alice"; "bob"]}, {["bob"]}, []).
Proof. vm_compute. reflexivity. Qed.

(** C3, amended: a [join-room] whose history query succeeded takes the
    members of the room right after it has sent [room-history], and
    broadcasts their number, a bare count, as [active-users] to the members
    of the room, the joining socket among them while it is open.  No count is
    made when a socket disconnects. *)
Theorem join_room_counts_members acts σ tid sid roomId msgs :
  run acts init = Some σ →
  tasks σ !! tid = Some (JoinSelectDone sid roomId (Data msgs)) →
  ∃ σ1 σ2,
    step (Resume tid) σ = Some σ1
    ∧ tasks σ1 !! tid = Some (JoinAwaitSockets sid roomId (members roomId σ))
    ∧ step (Resume tid) σ1 = Some σ2
    ∧ trace σ2 = trace σ
        ++ [mkEmission (if decide (sid ∈ connected σ) then {[sid]} else ∅)
              (EvRoomHistory msgs);
            mkEmission (members roomId σ)
              (EvActiveUsers (size (members roomId σ)))]
    ∧ (sid ∈ connected σ → sid ∈ members roomId σ)
    ∧ ∀ s, trace (on_disconnect s σ2) = trace σ2.
Proof.
  intros Hrun Ht. eexists _, _. split.
  { unfold step, resume. rewrite Ht. reflexivity. }
  split; [simpl; by rewrite lookup_insert_eq|]. split.
  { unfold step, resume. simpl. rewrite lookup_insert_eq. reflexivity. }
  split; [simpl; by rewrite <- app_assoc|]. split; [|done].
  intros Hc. destruct (joined_reachable _ _ Hrun) as (_ & _ & Hjm & _).
  by apply (Hjm tid _ sid roomId Ht).
Qed.

Lemma join_room_counts_members_witness :
  let acts := [Connect "alice"; JoinRoom "alice" "general" "alice@chat.io";
               StoreServe 0 Succeed] in
  run acts init = Some (after acts)
  ∧ tasks (after acts) !! 0 = Some (JoinSelectDone "alice" "general" (Data []))
  ∧ ∃ σ1 σ2,
      step (Resume 0) (after acts) = Some σ1
      ∧ tasks σ1 !! 0
        = Some (JoinAwaitSockets "alice" "general"
                  (members "general" (after acts)))
      ∧ step (Resume 0) σ1 = Some σ2
      ∧ trace σ2 = trace (after acts)
          ++ [mkEmission (if decide ("alice" ∈ connected (after acts))
                          then {["alice"]} else ∅) (EvRoomHistory []);
              mkEmission (members "general" (after acts))
                (EvActiveUsers (size (members "general" (after acts))))]
      ∧ ("alice" ∈ connected (after acts)
         → "alice" ∈ members "general" (after acts))
      ∧ ∀ s, trace (on_disconnect s σ2) = trace σ2.
Proof.
  intros acts.
  assert (H1 : run acts init = Some (after acts)) by (vm_compute; reflexivity).
  assert (H2 : tasks (after acts) !! 0
               = Some (JoinSelectDone "alice" "general" (Data [])))
    by (vm_compute; reflexivity).
  exact (conj H1 (conj H2
           (join_room_counts_members acts _ 0 "alice" "general" [] H1 H2))).
Defined.

(** C4, as stated, fails: Alice and Bob are both in "general" and in
    "random"; when Alice's connection drops she leaves both rooms, and no
    count is broadcast for either: none where the claim has two. *)
Lemma disconnect_two_rooms_no_recount :
  (σ ← run two_rooms_acts init;
   σ' ← step (Disconnect "alice") σ;
   Some (members "general" σ, members "random" σ,
         members "general" σ', members "random" σ',
         omap recount_of (drop (length (trace σ)) (trace σ'))))
  = Some ({["alice"; "bob"]}, {["alice"; "bob"]}, {["bob"]}, {["bob"]}, []).
Proof. vm_compute. reflexivity. Qed.

(** C4, amended: after a socket disconnects it is in no room, every room
    keeps its other members, and nothing is emitted: the handler makes no
    count.  The socket cannot disconnect again, and taking it out of the rooms
    a second time changes nothing. *)
Theorem disconnect_leaves_every_room_silently σ sid :
  sid ∈ connected σ →
  ∃ σ', step (Disconnect sid) σ = Some σ'
    ∧ (∀ r, sid ∉ members r σ')
    ∧ (∀ r, members r σ' = members r σ ∖ {[sid]})
    ∧ (sid ∉ connected σ')
    ∧ trace σ' = trace σ
    ∧ on_disconnect sid σ' = σ'
    ∧ step (Disconnect sid) σ' = None.
Proof.
  intros Hc. exists (on_disconnect sid σ).
  split; [unfold step; by rewrite decide_True|].
  split; [intros r; rewrite members_on_disconnect; set_solver|].
  split; [intros r; apply members_on_disconnect|].
  split; [simpl; set_solver|]. split; [done|]. split.
  - unfold on_disconnect. simpl. rewrite leave_all_idemp. f_equal. set_solver.
  - unfold step. rewrite decide_False; [done|]. simpl. set_solver.
Qed.

Lemma disconnect_leaves_every_room_silently_witness :
  "alice" ∈ connected lobby
  ∧ ∃ σ', step (Disconnect "alice") lobby = Some σ'
      ∧ (∀ r, "alice" ∉ members r σ')
      ∧ (∀ r, members r σ' = members r lobby ∖ {["alice"]})
      ∧ ("alice" ∉ connected σ')
      ∧ trace σ' = trace lobby
      ∧ on_disconnect "alice" σ' = σ'
      ∧ step (Disconnect "alice") σ' = None.
Proof.
  assert (H : "alice" ∈ connected lobby) by (vm_compute; reflexivity).
  exact (conj H (disconnect_leaves_every_room_silently lobby "alice" H)).
Defined.

(** The server's part in replaying history: a [join-room] whose history
    query succeeds emits [room-history] once, on the joining socket alone, and
    its payload is the rows of the table with that [room_id], in ascending
    [created_at] order; the handler's only other emission is [active-users].
    When the query fails the handler emits [error] on the joining socket and
    no [room-history].  The event names neither the room nor the join. *)
Lemma join_room_history_to_joiner_once σ sid roomId userEmail :
  sid ∈ connected σ →
  (∃ σ' msgs n,
     run (join_alone sid roomId userEmail (next_task σ)) σ = Some σ'
     ∧ trace σ' = trace σ
         ++ [mkEmission {[sid]} (EvRoomHistory msgs);
             mkEmission ({[sid]} ∪ members roomId σ) (EvActiveUsers n)]
     ∧ msgs ≡ₚ filter (λ r, Message.room_id r = roomId) (store σ)
     ∧ StronglySorted created_le msgs
     ∧ tasks σ' !! next_task σ = None)
  ∧ (∀ o, o ≠ Succeed →
     ∃ σ' message,
       run (join_failing sid roomId userEmail o (next_task σ)) σ = Some σ'
       ∧ trace σ' = trace σ ++ [mkEmission {[sid]} (EvError message)]
       ∧ tasks σ' !! next_task σ = None).
Proof.
  intros Hc. split.
  - destruct (join_alone_run σ sid roomId userEmail Hc)
      as (σ' & Hrun & _ & _ & _ & _ & _ & Htask & Htrace).
    exists σ', (select_messages roomId (store σ)),
      (size ({[sid]} ∪ members roomId σ)).
    split; [exact Hrun|]. split; [exact Htrace|].
    split; [apply select_messages_perm|].
    split; [apply select_messages_sorted|exact Htask].
  - intros o Ho.
    destruct (join_failing_run σ sid roomId userEmail o Hc Ho)
      as (σ' & Hrun & _ & _ & _ & _ & Htask & Htrace).
    eexists σ', _. by repeat split.
Qed.

(** C7, as stated, fails: Carol is connected but has not joined "general",
    where Alice is; Carol's message to "general" is stored and emitted to the
    members of the room, that is to Alice alone: the sender is not among the
    receivers. *)
Lemma outsider_send_skips_sender :
  (σ ← run outsider_send init;
   Some (committed "general" (store σ), audience <$> last (trace σ),
         observed "alice" "general" (trace σ),
         observed "carol" "general" (trace σ)))
  = Some ([hello], Some {["alice"]}, [hello], []).
Proof. vm_compute. reflexivity. Qed.

(** C7, amended: once the row is stored the message is emitted to exactly the
    members the room has at that moment; the sender is not left out of them,
    and receives the message when it is a member.  So a socket that joins a
    room and then sends there receives its own message, as every other member
    does. *)
Theorem fan_out_to_members σ sid roomId userEmail text now :
  sid ∈ connected σ →
  let msg := Msg.mk roomId userEmail text now in
  let tid := next_task σ in
  (∃ σ', run (send_alone sid roomId userEmail text now Succeed tid) σ = Some σ'
     ∧ trace σ' = trace σ
                  ++ [mkEmission (members roomId σ) (EvNewMessage msg)]
     ∧ ∀ s, observed s roomId (trace σ')
            = observed s roomId (trace σ)
              ++ (if decide (s ∈ members roomId σ) then [msg] else []))
  ∧ (∃ σ', run (JoinRoom sid roomId userEmail
                :: send_alone sid roomId userEmail text now Succeed (S tid)) σ
           = Some σ'
     ∧ members roomId σ' = {[sid]} ∪ members roomId σ
     ∧ trace σ' = trace σ
                  ++ [mkEmission (members roomId σ') (EvNewMessage msg)]
     ∧ sid ∈ members roomId σ'
     ∧ ∀ s, s ∈ members roomId σ' →
         observed s roomId (trace σ') = observed s roomId (trace σ) ++ [msg]).
Proof.
  intros Hc msg tid. split.
  { destruct (send_alone_succeed σ sid roomId userEmail text now Hc)
      as (σ' & Hrun & _ & _ & _ & _ & _ & Htrace).
    exists σ'. split; [exact Hrun|]. split; [exact Htrace|].
    intros s. rewrite Htrace, observed_app, observed_new_message. f_equal.
    destruct (decide (s ∈ members roomId σ)) as [Hs|Hs].
    - by rewrite decide_True.
    - rewrite decide_False; [done|]. by intros [? _]. }
  assert (Hc1 : sid ∈ connected (on_join_room sid roomId userEmail σ)) by done.
  destruct (send_alone_succeed _ sid roomId userEmail text now Hc1)
    as (σ' & Hrun & _ & _ & Hrooms & _ & _ & Htrace).
  assert (Hm : members roomId σ' = {[sid]} ∪ members roomId σ).
  { unfold members at 1. rewrite Hrooms. simpl. by rewrite lookup_insert_eq. }
  exists σ'. split.
  { change (run (?a :: ?l) σ) with (step a σ ≫= run l).
    unfold step. rewrite decide_True by done. exact Hrun. }
  split; [exact Hm|]. split.
  { rewrite Htrace, Hm. simpl. f_equal. f_equal. f_equal.
    unfold members. simpl. by rewrite lookup_insert_eq. }
  split; [rewrite Hm; set_solver|].
  intros s Hs. rewrite Htrace, observed_app, observed_new_message.
  rewrite decide_True; [done|]. split; [|done].
  rewrite Hm in Hs. unfold members at 1. simpl. by rewrite lookup_insert_eq.
Qed.

Lemma fan_out_to_members_witness :
  "alice" ∈ connected (after [Connect "alice"; Connect "bob"])
  ∧ ∃ σ', run (JoinRoom "alice" "general" "alice@chat.io"
               :: send_alone "alice" "general" "alice@chat.io" "hi" 1000
                    Succeed 1)
            (after [Connect "alice"; Connect "bob"]) = Some σ'
      ∧ "alice" ∈ members "general" σ'
      ∧ observed "alice" "general" (trace σ') = [hi].
Proof.
  assert (H : "alice" ∈ connected (after [Connect "alice"; Connect "bob"]))
    by (vm_compute; reflexivity).
  destruct (fan_out_to_members
              (after [Connect "alice"; Connect "bob"])
              "alice" "general" "alice@chat.io" "hi" 1000 H)
    as (_ & σ' & Hrun & _ & _ & Hin & Hobs).
  split; [exact H|]. exists σ'. split; [exact Hrun|]. split; [exact Hin|].
  exact (Hobs "alice" Hin).
Defined.

(** C8: in every state the event loop can reach, when a parked [join-room]
    whose history query failed resumes, all it does is emit [error] on the
    joining socket: the rooms are left as they are, and the socket, while it
    is open, is still a member of the room it joined. *)
Theorem failed_history_keeps_the_join acts σ tid sid roomId reply :
  run acts init = Some σ →
  tasks σ !! tid = Some (JoinSelectDone sid roomId reply) →
  reply = ErrorField ∨ reply = Thrown →
  ∃ σ' message,
    step (Resume tid) σ = Some σ'
    ∧ rooms σ' = rooms σ
    ∧ connected σ' = connected σ
    ∧ (sid ∈ connected σ' → sid ∈ members roomId σ')
    ∧ trace σ' = trace σ
        ++ [mkEmission (if decide (sid ∈ connected σ) then {[sid]} else ∅)
              (EvError message)]
    ∧ message ∈ error_messages.
Proof.
  intros Hrun Ht Hr.
  destruct (joined_reachable _ _ Hrun) as (_ & _ & Hjm & _).
  assert (Hin : sid ∈ connected σ → sid ∈ members roomId σ)
    by apply (Hjm tid _ sid roomId Ht eq_refl).
  unfold step, resume. rewrite Ht.
  destruct Hr as [-> | ->]; eexists _, _; (split; [reflexivity|]); simpl;
    (repeat split; [done|]); unfold error_messages; set_solver.
Qed.

Lemma failed_history_keeps_the_join_witness :
  let acts := [Connect "alice"; JoinRoom "alice" "general" "alice@chat.io";
               StoreServe 0 Fail] in
  run acts init = Some (after acts)
  ∧ tasks (after acts) !! 0 = Some (JoinSelectDone "alice" "general" ErrorField)
  ∧ ∃ σ' message,
      step (Resume 0) (after acts) = Some σ'
      ∧ rooms σ' = rooms (after acts)
      ∧ connected σ' = connected (after acts)
      ∧ ("alice" ∈ connected σ' → "alice" ∈ members "general" σ')
      ∧ trace σ' = trace (after acts)
          ++ [mkEmission (if decide ("alice" ∈ connected (after acts))
                          then {["alice"]} else ∅) (EvError message)]
      ∧ message ∈ error_messages.
Proof.
  intros acts.
  assert (H1 : run acts init = Some (after acts)) by (vm_compute; reflexivity).
  assert (H2 : tasks (after acts) !! 0
               = Some (JoinSelectDone "alice" "general" ErrorField))
    by (vm_compute; reflexivity).
  exact (conj H1 (conj H2
           (failed_history_keeps_the_join acts _ 0 "alice" "general" ErrorField
              H1 H2 (or_introl eq_refl)))).
Defined.

(** C9: the handler never looks at the rooms of the sender.  From any state
    the loop can reach, a send by an open socket is stored and broadcast, and
    the same send from the state in which the sender has joined the room
    stores the same row and broadcasts the same message; the audiences differ
    by the sender alone.  No [error] other than the three of the handlers is
    ever emitted. *)
Theorem send_ignores_membership acts σ sid roomId userEmail text now :
  run acts init = Some σ →
  sid ∈ connected σ →
  let msg := Msg.mk roomId userEmail text now in
  let send := send_alone sid roomId userEmail text now Succeed (next_task σ) in
  ∃ σ1 σ2,
    run send σ = Some σ1
    ∧ run send (socket_join sid roomId σ) = Some σ2
    ∧ store σ1 = store σ ++ [insert_row msg (store σ)]
    ∧ store σ2 = store σ1
    ∧ trace σ1 = trace σ ++ [mkEmission (members roomId σ) (EvNewMessage msg)]
    ∧ trace σ2 = trace σ
        ++ [mkEmission ({[sid]} ∪ members roomId σ) (EvNewMessage msg)]
    ∧ ∀ aud s, mkEmission aud (EvError s) ∈ trace σ1 → s ∈ error_messages.
Proof.
  intros Hrun Hc msg send.
  destruct (send_alone_succeed σ sid roomId userEmail text now Hc)
    as (σ1 & Hrun1 & _ & _ & _ & Hstore1 & _ & Htrace1).
  assert (Hc2 : sid ∈ connected (socket_join sid roomId σ)) by done.
  destruct (send_alone_succeed _ sid roomId userEmail text now Hc2)
    as (σ2 & Hrun2 & _ & _ & _ & Hstore2 & _ & Htrace2).
  exists σ1, σ2. split; [exact Hrun1|]. split; [exact Hrun2|].
  split; [exact Hstore1|]. split; [by rewrite Hstore2, Hstore1|].
  split; [exact Htrace1|]. split.
  { rewrite Htrace2, members_socket_join. by rewrite decide_True. }
  apply (known_errors_reachable (acts ++ send)).
  rewrite run_app, Hrun. exact Hrun1.
Qed.

Lemma send_ignores_membership_witness :
  let acts := [Connect "alice"; Connect "carol"]
              ++ join_alone "alice" "general" "alice@chat.io" 0 in
  let msg := Msg.mk "general" "carol@chat.io" "hello" 5 in
  let send := send_alone "carol" "general" "carol@chat.io" "hello" 5 Succeed
                (next_task (after acts)) in
  run acts init = Some (after acts)
  ∧ "carol" ∈ connected (after acts)
  ∧ ("carol" ∉ members "general" (after acts))
  ∧ ∃ σ1 σ2,
      run send (after acts) = Some σ1
      ∧ run send (socket_join "carol" "general" (after acts)) = Some σ2
      ∧ store σ1 = store (after acts) ++ [insert_row msg (store (after acts))]
      ∧ store σ2 = store σ1
      ∧ trace σ1 = trace (after acts)
          ++ [mkEmission (members "general" (after acts)) (EvNewMessage msg)]
      ∧ trace σ2 = trace (after acts)
          ++ [mkEmission ({["carol"]} ∪ members "general" (after acts))
                (EvNewMessage msg)]
      ∧ ∀ aud s, mkEmission aud (EvError s) ∈ trace σ1 → s ∈ error_messages.
Proof.
  intros acts msg send.
  assert (H1 : run acts init = Some (after acts)) by (vm_compute; reflexivity).
  assert (H2 : "carol" ∈ connected (after acts)) by (vm_compute; reflexivity).
  assert (H3 : "carol" ∉ members "general" (after acts))
    by (vm_compute; discriminate).
  exact (conj H1 (conj H2 (conj H3
           (send_ignores_membership acts _ "carol" "general" "carol@chat.io"
              "hello" 5 H1 H2)))).
Defined.

(** C10: what is broadcast as [new-message] is the object [msg] the handler
    built, a [Msg.t], which has the four fields [room_id], [user_email],
    [text] and [created_at] and no [id]; a [join-room] handled after it
    replays the same message as a row of the table, a [Message.t], with the
    [id] the table gave it and the same four fields. *)
Theorem live_message_has_no_id
    σ sid joiner roomId userEmail joinerEmail text now :
  sid ∈ connected σ →
  joiner ∈ connected σ →
  let msg := Msg.mk roomId userEmail text now in
  let row := insert_row msg (store σ) in
  let tid := next_task σ in
  ∃ σ' history n,
    run (send_alone sid roomId userEmail text now Succeed tid
         ++ join_alone joiner roomId joinerEmail (S tid)) σ = Some σ'
    ∧ trace σ' = trace σ
        ++ [mkEmission (members roomId σ) (EvNewMessage msg);
            mkEmission {[joiner]} (EvRoomHistory history);
            mkEmission ({[joiner]} ∪ members roomId σ) (EvActiveUsers n)]
    ∧ row ∈ history
    ∧ Message.id row = S (length (store σ))
    ∧ row_msg row = msg.
Proof.
  intros Hc Hj msg row tid.
  destruct (send_alone_succeed σ sid roomId userEmail text now Hc)
    as (σ1 & Hrun1 & _ & Hcon1 & Hrooms1 & Hstore1 & Hnext1 & Htrace1).
  assert (Hj1 : joiner ∈ connected σ1) by by rewrite Hcon1.
  destruct (join_alone_run σ1 joiner roomId joinerEmail Hj1)
    as (σ' & Hrun' & _ & _ & _ & _ & _ & _ & Htrace').
  assert (Hm : members roomId σ1 = members roomId σ)
    by (unfold members; by rewrite Hrooms1).
  eexists σ', _, _. split.
  { rewrite run_app. fold tid in Hrun1. rewrite Hrun1. simpl mbind.
    rewrite Hnext1 in Hrun'. exact Hrun'. }
  split.
  { rewrite Htrace', Htrace1, Hm, <- app_assoc. reflexivity. }
  split; [|split; [reflexivity|apply row_msg_insert_row]].
  rewrite select_messages_elem, Hstore1. split; [reflexivity|].
  apply elem_of_app. right. by apply list_elem_of_singleton.
Qed.

Lemma live_message_has_no_id_witness :
  "alice" ∈ connected lobby
  ∧ "bob" ∈ connected lobby
  ∧ ∃ σ' history n,
      run (send_alone "alice" "general" "alice@chat.io" "hi" 1000 Succeed 2
           ++ join_alone "bob" "general" "bob@chat.io" 3) lobby = Some σ'
      ∧ trace σ' = trace lobby
          ++ [mkEmission (members "general" lobby) (EvNewMessage hi);
              mkEmission {["bob"]} (EvRoomHistory history);
              mkEmission ({["bob"]} ∪ members "general" lobby)
                (EvActiveUsers n)]
      ∧ Message.mk 1 "general" "alice@chat.io" "hi" 1000 ∈ history
      ∧ Message.id (insert_row hi (store lobby)) = 1
      ∧ row_msg (insert_row hi (store lobby)) = hi.
Proof.
  assert (H1 : "alice" ∈ connected lobby) by (vm_compute; reflexivity).
  assert (H2 : "bob" ∈ connected lobby) by (vm_compute; reflexivity).
  exact (conj H1 (conj H2
           (live_message_has_no_id lobby "alice" "bob" "general"
              "alice@chat.io" "bob@chat.io" "hi" 1000 H1 H2))).
Defined.

End Claims.

(** * More about the event loop *)

Section Rooms.
Implicit Types (σ : State).

Lemma members_kept_step a σ σ' (who room : string) :
  step a σ = Some σ' → a ≠ Disconnect who →
  who ∈ members room σ → who ∈ members room σ'.
Proof.
  intros Hs Hne Hin. step_cases Hs; try exact Hin.
  - rewrite members_on_connection. case_decide; subst; [|done].
    by apply elem_of_union_r.
  - rewrite members_on_disconnect. apply elem_of_difference. split; [done|].
    intros ->%elem_of_singleton. done.
  - unfold on_join_room.
    change (members room (park ?t ?σ)) with (members room σ).
    rewrite members_socket_join. case_decide; subst; [|done].
    by apply elem_of_union_r.
Qed.

(** X1: no handler makes a socket leave a room; in a run in which a socket
    does not disconnect, every room it is in at the start it is in at the
    end. *)
Theorem room_left_only_by_disconnect acts σ σ' sid roomId :
  run acts σ = Some σ' →
  Disconnect sid ∉ acts →
  sid ∈ members roomId σ →
  sid ∈ members roomId σ'.
Proof.
  revert σ. induction acts as [|a acts IH]; intros σ Hrun Hno Hin.
  - simpl in Hrun. by simplify_eq.
  - simpl in Hrun. destruct (step a σ) as [σ1|] eqn:Ha; [|done].
    apply not_elem_of_cons in Hno as [Hne Hno].
    apply (IH σ1 Hrun Hno). eapply members_kept_step; eauto.
Qed.

Lemma room_left_only_by_disconnect_witness :
  let acts := [Disconnect "bob";
               JoinRoom "alice" "random" "alice@chat.io";
               SendMessage "alice" "general" "alice@chat.io" "hi" 1000] in
  run acts lobby = Some (run_on lobby acts)
  ∧ (Disconnect "alice" ∉ acts)
  ∧ "alice" ∈ members "general" lobby
  ∧ "alice" ∈ members "general" (run_on lobby acts).
Proof.
  intros acts.
  assert (H1 : run acts lobby = Some (run_on lobby acts))
    by (vm_compute; reflexivity).
  assert (H2 : Disconnect "alice" ∉ acts).
  { intros H. repeat (apply elem_of_cons in H as [H|H]; [discriminate H|]).
    by apply elem_of_nil in H. }
  assert (H3 : "alice" ∈ members "general" lobby) by (vm_compute; reflexivity).
  exact (conj H1 (conj H2 (conj H3
           (room_left_only_by_disconnect acts lobby _ "alice" "general"
              H1 H2 H3)))).
Defined.

Lemma store_grows_step a σ σ' : step a σ = Some σ' → store σ `prefix_of` store σ'.
Proof.
  intros Hs. step_cases Hs; try reflexivity.
  by apply prefix_app_r.
Qed.

(** X2: no handler rewrites or removes a stored message; whatever happens,
    the table at the end of a run is the table at its start with rows added
    after it. *)
Theorem store_only_grows acts σ σ' :
  run acts σ = Some σ' → store σ `prefix_of` store σ'.
Proof.
  revert σ. induction acts as [|a acts IH]; intros σ Hrun.
  - simpl in Hrun. by simplify_eq.
  - simpl in Hrun. destruct (step a σ) as [σ1|] eqn:Ha; [|done].
    etrans; [by eapply store_grows_step|by apply IH].
Qed.

Lemma store_only_grows_witness :
  run more_sends chatting = Some (run_on chatting more_sends)
  ∧ length (store chatting) = 2
  ∧ length (store (run_on chatting more_sends)) = 3
  ∧ store chatting `prefix_of` store (run_on chatting more_sends).
Proof.
  assert (H : run more_sends chatting = Some (run_on chatting more_sends))
    by (vm_compute; reflexivity).
  split; [exact H|]. split; [vm_compute; reflexivity|].
  split; [vm_compute; reflexivity|].
  exact (store_only_grows more_sends chatting _ H).
Defined.

Lemma run_snoc acts a σ : run (acts ++ [a]) σ = run acts σ ≫= step a.
Proof.
  rewrite run_app. destruct (run acts σ) as [σ1|]; simpl; [|done].
  by destruct (step a σ1).
Qed.

Lemma sent_snoc acts a m : sent acts m → sent (acts ++ [a]) m.
Proof. intros [sid H]. exists sid. apply elem_of_app. by left. Qed.

Lemma provenance_step acts a σ σ' :
  step a σ = Some σ' → provenance acts σ → provenance (acts ++ [a]) σ'.
Proof.
  intros Hs (Hst & Haw & Hdn & Htr).
  assert (Hst' : ∀ row, row ∈ store σ → sent (acts ++ [a]) (row_msg row))
    by (intros; apply sent_snoc; eauto).
  assert (Haw' : ∀ tid sid m, tasks σ !! tid = Some (SendAwaitInsert sid m) →
                   sent (acts ++ [a]) m)
    by (intros; eapply sent_snoc; eauto).
  assert (Hdn' : ∀ tid sid m rp,
                   tasks σ !! tid = Some (SendInsertDone sid m rp) →
                   sent (acts ++ [a]) m)
    by (intros; eapply sent_snoc; eauto).
  assert (Htr' : ∀ aud m, mkEmission aud (EvNewMessage m) ∈ trace σ →
                   sent (acts ++ [a]) m)
    by (intros; eapply sent_snoc; eauto).
  clear Hst Haw Hdn Htr.
  step_cases Hs.
  all: try (split; [exact Hst'|]; split; [|split];
    [ intros tid' s' m'; slot_lookup; first [done | eauto]
    | intros tid' s' m' rp'; slot_lookup; first [done | eauto]
    | first [exact Htr' | intros aud m' H; old_or_new H] ]; fail).
  - (* send-message parks *)
    split; [exact Hst'|]. split; [|split]; [| |exact Htr'].
    + intros tid' s' m'. slot_lookup; [|eauto].
      intros ?; simplify_eq. eexists. simpl.
      apply elem_of_app. right. by apply list_elem_of_singleton.
    + intros tid' s' m' rp'. slot_lookup; [done|eauto].
  - (* insert commits *)
    split; [|split; [|split]]; [| | |exact Htr'].
    + intros row. simpl. rewrite elem_of_app, list_elem_of_singleton.
      intros [?| ->]; [eauto|]. rewrite row_msg_insert_row. eauto.
    + intros tid' s' m'. slot_lookup; [done|eauto].
    + intros tid' s' m' rp'. slot_lookup; [|eauto].
      intros ?; simplify_eq. eauto.
  - split; [exact Hst'|]. split; [|split]; [| |exact Htr'].
    + intros tid' s' m'. slot_lookup; [done|eauto].
    + intros tid' s' m' rp'. slot_lookup; [|eauto].
      intros ?; simplify_eq. eauto.
  - split; [exact Hst'|]. split; [|split]; [| |exact Htr'].
    + intros tid' s' m'. slot_lookup; [done|eauto].
    + intros tid' s' m' rp'. slot_lookup; [|eauto].
      intros ?; simplify_eq. eauto.
Qed.

(** X3: the server makes up no message; in every state the event loop can
    reach, each row of the table and each message broadcast has the room, the
    email, the text and the clock reading of a [send-message] event of the
    run. *)
Theorem only_sent_messages_stored acts σ :
  run acts init = Some σ →
  (∀ row, row ∈ store σ → sent acts (row_msg row))
  ∧ (∀ aud m, mkEmission aud (EvNewMessage m) ∈ trace σ → sent acts m).
Proof.
  intros Hrun. cut (provenance acts σ); [by intros (? & _ & _ & ?)|].
  revert σ Hrun. induction acts as [|a acts IH] using rev_ind; intros σ Hrun.
  - simpl in Hrun. simplify_eq. split; [|split; [|split]].
    + intros row H. by apply elem_of_nil in H.
    + intros tid sid m H. simpl in H. by rewrite lookup_empty in H.
    + intros tid sid m rp H. simpl in H. by rewrite lookup_empty in H.
    + intros aud m H. by apply elem_of_nil in H.
  - rewrite run_snoc in Hrun.
    destruct (run acts init) as [σ1|] eqn:H1; [|done]. simpl in Hrun.
    eapply provenance_step; eauto.
Qed.

Lemma only_sent_messages_stored_witness :
  run racing_sends init = Some (after racing_sends)
  ∧ (∀ row, row ∈ store (after racing_sends) →
       sent racing_sends (row_msg row))
  ∧ (∀ aud m,
       mkEmission aud (EvNewMessage m) ∈ trace (after racing_sends) →
       sent racing_sends m).
Proof.
  assert (H : run racing_sends init = Some (after racing_sends))
    by (vm_compute; reflexivity).
  exact (conj H (only_sent_messages_stored racing_sends _ H)).
Defined.

Lemma socket_emit_audience_size sid σ :
  (size (if decide (sid ∈ connected σ) then {[sid]} else ∅ : gset string)
   ≤ 1)%nat.
Proof. case_decide; [by rewrite size_singleton|by rewrite size_empty; lia]. Qed.

Lemma unicast_step a σ σ' :
  step a σ = Some σ' → Forall unicast (trace σ) → Forall unicast (trace σ').
Proof.
  intros Hs Hu. step_cases Hs; try exact Hu.
  all: simpl; apply Forall_app; split; [exact Hu|];
    apply Forall_singleton; unfold unicast; simpl;
    first [apply socket_emit_audience_size | exact I].
Qed.

(** X4: [error] and [room-history] are never broadcast; in every state the
    event loop can reach, each such emission went to one socket at most. *)
Theorem errors_and_history_reach_one_socket acts σ :
  run acts init = Some σ → Forall unicast (trace σ).
Proof.
  apply (run_invariant (λ σ, Forall unicast (trace σ)) unicast_step).
  constructor.
Qed.
Lemma errors_and_history_reach_one_socket_witness :
  run two_rooms_acts init = Some (after two_rooms_acts)
  ∧ Forall unicast (trace (after two_rooms_acts)).
Proof.
  assert (H : run two_rooms_acts init = Some (after two_rooms_acts))
    by (vm_compute; reflexivity).
  exact (conj H (errors_and_history_reach_one_socket two_rooms_acts _ H)).
Defined.
End Rooms.

Section Presence.
Implicit Types (σ : State) (sid roomId : string).

(** X5: when sockets that are not yet in a room join it one after the other,
    each join to its end, the counts broadcast as [active-users] go up by
    one from the number of members the room had, and the room ends with the
    joiners added. *)
Theorem joins_count_up (js : list (string * string)) roomId σ :
  NoDup js.*1 →
  Forall (λ j, j.1 ∈ connected σ) js →
  (∀ j, j ∈ js → j.1 ∉ members roomId σ) →
  ∃ σ' new,
    join_each js roomId σ = Some σ'
    ∧ connected σ' = connected σ
    ∧ trace σ' = trace σ ++ new
    ∧ members roomId σ' = list_to_set js.*1 ∪ members roomId σ
    ∧ omap recount_of new = seq (S (size (members roomId σ))) (length js).
Proof.
  revert σ. induction js as [|[s e] js IH]; intros σ Hnd Hall Hout.
  - exists σ, []. simpl. rewrite app_nil_r. repeat split; try done. set_solver.
  - apply NoDup_cons in Hnd as [Hs Hnd]. apply Forall_cons in Hall as [Hc Hall].
    simpl in Hc, Hs.
    destruct (join_alone_run σ s roomId e Hc)
      as (σ1 & Hrun & _ & Hcon & Hrooms & _ & _ & _ & Htrace).
    assert (Hm1 : members roomId σ1 = {[s]} ∪ members roomId σ).
    { unfold members at 1. rewrite Hrooms. by rewrite lookup_insert_eq. }
    assert (Hsout : s ∉ members roomId σ).
    { apply (Hout (s, e)). by left. }
    destruct (IH σ1) as (σ' & new & Hrun' & Hcon' & Htrace' & Hm' & Hcnt);
      [done|by rewrite Hcon| |].
    { intros j Hj. rewrite Hm1. apply not_elem_of_union. split.
      - intros Heq%elem_of_singleton. apply Hs. rewrite <- Heq.
        by apply list_elem_of_fmap_2.
      - apply Hout. by right. }
    eexists σ', _. split.
    { change (join_each ((s, e) :: js) roomId σ)
        with (match run (join_alone s roomId e (next_task σ)) σ with
              | Some σ' => join_each js roomId σ'
              | None => None
              end).
      rewrite Hrun. exact Hrun'. }
    split; [congruence|]. split.
    { rewrite Htrace', Htrace, <- app_assoc. reflexivity. }
    split.
    { rewrite Hm', Hm1. simpl. set_solver. }
    assert (Hsz : size ({[s]} ∪ members roomId σ)
                  = S (size (members roomId σ))).
    { rewrite size_union, size_singleton by set_solver. done. }
    rewrite omap_app, Hcnt, Hm1, Hsz. reflexivity.
Qed.
Lemma joins_count_up_witness :
  let js := [("alice", "alice@chat.io"); ("bob", "bob@chat.io")] in
  let σ := after [Connect "alice"; Connect "bob"] in
  NoDup js.*1
  ∧ Forall (λ j, j.1 ∈ connected σ) js
  ∧ (∀ j, j ∈ js → j.1 ∉ members "general" σ)
  ∧ ∃ σ' new,
      join_each js "general" σ = Some σ'
      ∧ connected σ' = connected σ
      ∧ trace σ' = trace σ ++ new
      ∧ members "general" σ' = list_to_set js.*1 ∪ members "general" σ
      ∧ omap recount_of new = [1; 2].
Proof.
  intros js σ.
  assert (H1 : NoDup js.*1).
  { apply (bool_decide_unpack _). vm_compute. exact I. }
  assert (H2 : Forall (λ j, j.1 ∈ connected σ) js).
  { repeat constructor; vm_compute; reflexivity. }
  assert (H3 : ∀ j, j ∈ js → j.1 ∉ members "general" σ).
  { intros j _. vm_compute. discriminate. }
  exact (conj H1 (conj H2 (conj H3 (joins_count_up js "general" σ H1 H2 H3)))).
Defined.
End Presence.

Section InFlight.
Implicit Types (σ : State) (sid roomId userEmail text : string) (now : N).

(** X6: a send whose socket closes while the insert is awaited is carried
    through all the same: if the insert succeeds the row is stored and the
    message broadcast to the others in the room; if it fails the [error] is
    emitted on the closed socket and reaches no one. *)
Theorem send_outlives_its_socket σ sid roomId userEmail text now o :
  sid ∈ connected σ →
  let msg := Msg.mk roomId userEmail text now in
  let tid := next_task σ in
  ∃ σ', run [SendMessage sid roomId userEmail text now; Disconnect sid;
             StoreServe tid o; Resume tid] σ = Some σ'
    ∧ (sid ∉ connected σ')
    ∧ match o with
      | Succeed =>
          store σ' = store σ ++ [insert_row msg (store σ)]
          ∧ trace σ' = trace σ
              ++ [mkEmission (members roomId σ ∖ {[sid]}) (EvNewMessage msg)]
      | _ =>
          store σ' = store σ
          ∧ trace σ' = trace σ
              ++ [mkEmission ∅ (EvError "Failed to send message")]
      end.
Proof.
  intros Hc msg tid.
  assert (Hgone : sid ∉ connected σ ∖ {[sid]}) by set_solver.
  destruct o; eexists; (split;
    [ unfold run, step; rewrite decide_True by done;
      unfold on_send_message, park; simpl; rewrite decide_True by done;
      unfold store_serve; simpl; rewrite lookup_insert_eq; simpl;
      unfold resume; simpl; rewrite lookup_insert_eq; reflexivity
    | simpl; split; [exact Hgone|] ]).
  - split; [done|]. do 3 f_equal.
    change (members roomId (on_disconnect sid σ) = members roomId σ ∖ {[sid]}).
    apply members_on_disconnect.
  - by rewrite decide_False.
  - by rewrite decide_False.
Qed.

Lemma send_outlives_its_socket_witness :
  "alice" ∈ connected lobby
  ∧ ∃ σ', run [SendMessage "alice" "general" "alice@chat.io" "hi" 1000;
               Disconnect "alice"; StoreServe 2 Succeed; Resume 2] lobby
          = Some σ'
      ∧ ("alice" ∉ connected σ')
      ∧ store σ' = store lobby ++ [insert_row hi (store lobby)]
      ∧ trace σ' = trace lobby
          ++ [mkEmission (members "general" lobby ∖ {["alice"]})
                (EvNewMessage hi)].
Proof.
  assert (H : "alice" ∈ connected lobby) by (vm_compute; reflexivity).
  exact (conj H (send_outlives_its_socket lobby "alice" "general"
                   "alice@chat.io" "hi" 1000 Succeed H)).
Defined.

(** X7: a join whose socket closes while the history is awaited leaves the
    socket in no room; its [room-history] reaches no one, and the count it
    broadcasts is the number of the members that remain, sent to them. *)
Theorem join_outlives_its_socket σ sid roomId userEmail :
  sid ∈ connected σ →
  let tid := next_task σ in
  let rest := members roomId σ ∖ {[sid]} in
  ∃ σ', run [JoinRoom sid roomId userEmail; Disconnect sid;
             StoreServe tid Succeed; Resume tid; Resume tid] σ = Some σ'
    ∧ members roomId σ' = rest
    ∧ trace σ' = trace σ
        ++ [mkEmission ∅ (EvRoomHistory (select_messages roomId (store σ)));
            mkEmission rest (EvActiveUsers (size rest))].
Proof.
  intros Hc tid rest.
  assert (Hgone : sid ∉ connected σ ∖ {[sid]}) by set_solver.
  assert (Hm : members roomId
                 (on_disconnect sid (socket_join sid roomId σ)) = rest).
  { rewrite members_on_disconnect, members_socket_join.
    rewrite decide_True by done. unfold rest. set_solver. }
  eexists. split.
  { unfold run, step. rewrite decide_True by done.
    unfold on_join_room, park. simpl. rewrite decide_True by done.
    unfold store_serve. simpl. rewrite lookup_insert_eq. simpl.
    unfold resume. simpl. rewrite lookup_insert_eq. simpl.
    rewrite lookup_insert_eq. reflexivity. }
  split; [rewrite <- Hm; reflexivity|].
  simpl. rewrite decide_False by done. rewrite <- app_assoc. simpl.
  rewrite <- Hm. reflexivity.
Qed.

Lemma join_outlives_its_socket_witness :
  "alice" ∈ connected lobby
  ∧ ∃ σ', run [JoinRoom "alice" "general" "alice@chat.io"; Disconnect "alice";
               StoreServe 2 Succeed; Resume 2; Resume 2] lobby = Some σ'
      ∧ members "general" σ' = members "general" lobby ∖ {["alice"]}
      ∧ trace σ' = trace lobby
          ++ [mkEmission ∅
                (EvRoomHistory (select_messages "general" (store lobby)));
              mkEmission (members "general" lobby ∖ {["alice"]})
                (EvActiveUsers (size (members "general" lobby ∖ {["alice"]})))].
Proof.
  assert (H : "alice" ∈ connected lobby) by (vm_compute; reflexivity).
  exact (conj H (join_outlives_its_socket lobby "alice" "general"
                   "alice@chat.io" H)).
Defined.

(** X8: joining a room the socket is already in changes no room; the
    history is sent again and the same count is broadcast again. *)
Theorem rejoin_changes_no_room σ sid roomId userEmail :
  sid ∈ connected σ →
  sid ∈ members roomId σ →
  ∃ σ', run (join_alone sid roomId userEmail (next_task σ)) σ = Some σ'
    ∧ rooms σ' = rooms σ
    ∧ trace σ' = trace σ
        ++ [mkEmission {[sid]}
              (EvRoomHistory (select_messages roomId (store σ)));
            mkEmission (members roomId σ)
              (EvActiveUsers (size (members roomId σ)))].
Proof.
  intros Hc Hin.
  destruct (join_alone_run σ sid roomId userEmail Hc)
    as (σ' & Hrun & _ & _ & Hrooms & _ & _ & _ & Htrace).
  assert (Hsame : {[sid]} ∪ members roomId σ = members roomId σ) by set_solver.
  exists σ'. split; [exact Hrun|]. rewrite Hsame in Hrooms, Htrace.
  split; [|exact Htrace]. rewrite Hrooms. apply insert_id.
  unfold members in *. destruct (rooms σ !! roomId); [done|].
  simpl in Hin. set_solver.
Qed.
Lemma rejoin_changes_no_room_witness :
  "alice" ∈ connected lobby
  ∧ "alice" ∈ members "general" lobby
  ∧ ∃ σ', run (join_alone "alice" "general" "alice@chat.io" (next_task lobby))
            lobby = Some σ'
      ∧ rooms σ' = rooms lobby
      ∧ trace σ' = trace lobby
          ++ [mkEmission {["alice"]}
                (EvRoomHistory (select_messages "general" (store lobby)));
              mkEmission (members "general" lobby)
                (EvActiveUsers (size (members "general" lobby)))].
Proof.
  assert (H1 : "alice" ∈ connected lobby) by (vm_compute; reflexivity).
  assert (H2 : "alice" ∈ members "general" lobby) by (vm_compute; reflexivity).
  exact (conj H1 (conj H2 (rejoin_changes_no_room lobby "alice" "general"
                             "alice@chat.io" H1 H2))).
Defined.
End InFlight.

Section Clock.
Implicit Types (σ : State) (sid roomId : string) (tbl : list Message.t).

Lemma clock_increasing_filter roomId tbl :
  clock_increasing tbl →
  clock_increasing (filter (λ r, Message.room_id r = roomId) tbl).
Proof.
  unfold clock_increasing. induction 1 as [|x l Hl IH Hx]; [constructor|].
  rewrite filter_cons. case_decide; [|done]. constructor; [done|].
  apply Forall_forall. intros y [_ Hy]%list_elem_of_filter.
  rewrite Forall_forall in Hx. by apply Hx.
Qed.

Lemma clock_increasing_le tbl :
  clock_increasing tbl → StronglySorted created_le tbl.
Proof.
  unfold clock_increasing. induction 1 as [|x l Hl IH Hx]; constructor; [done|].
  eapply Forall_impl; [exact Hx|]. intros y Hy. unfold created_le.
  simpl in Hy. lia.
Qed.

Lemma clock_increasing_same_time tbl a b :
  clock_increasing tbl → a ∈ tbl → b ∈ tbl →
  Message.created_at a = Message.created_at b → a = b.
Proof.
  unfold clock_increasing. induction 1 as [|x l Hl IH Hx]; intros Ha Hb Heq.
  - by apply elem_of_nil in Ha.
  - rewrite Forall_forall in Hx.
    apply elem_of_cons in Ha as [->|Ha]; apply elem_of_cons in Hb as [->|Hb].
    + done.
    + specialize (Hx _ Hb). simpl in Hx. lia.
    + specialize (Hx _ Ha). simpl in Hx. lia.
    + by apply IH.
Qed.

Lemma select_messages_increasing roomId tbl :
  clock_increasing tbl →
  select_messages roomId tbl = filter (λ r, Message.room_id r = roomId) tbl.
Proof.
  intros Hinc. pose proof (clock_increasing_filter roomId _ Hinc) as Hf.
  apply (StronglySorted_unique_strong created_le).
  - intros a b Ha Hb Hab Hba. unfold created_le in *.
    apply (clock_increasing_same_time _ a b Hf); [|done|lia].
    by rewrite <- (select_messages_perm roomId tbl).
  - apply select_messages_sorted.
  - by apply clock_increasing_le.
  - apply select_messages_perm.
Qed.

(** X9: when the clock readings of the stored rows grow strictly in commit
    order, the [room-history] a joining socket gets lists the rows of the
    room in the order the table committed them. *)
Theorem history_in_commit_order σ sid roomId userEmail :
  sid ∈ connected σ →
  clock_increasing (store σ) →
  ∃ σ' history n,
    run (join_alone sid roomId userEmail (next_task σ)) σ = Some σ'
    ∧ trace σ' = trace σ
        ++ [mkEmission {[sid]} (EvRoomHistory history);
            mkEmission ({[sid]} ∪ members roomId σ) (EvActiveUsers n)]
    ∧ history = filter (λ r, Message.room_id r = roomId) (store σ)
    ∧ row_msg <$> history = committed roomId (store σ).
Proof.
  intros Hc Hinc.
  destruct (join_alone_run σ sid roomId userEmail Hc)
    as (σ' & Hrun & _ & _ & _ & _ & _ & _ & Htrace).
  eexists σ', _, _. split; [exact Hrun|]. split; [exact Htrace|].
  rewrite (select_messages_increasing roomId _ Hinc). done.
Qed.

Lemma history_in_commit_order_witness :
  "bob" ∈ connected chatting
  ∧ clock_increasing (store chatting)
  ∧ ∃ σ' history n,
      run (join_alone "bob" "general" "bob@chat.io" (next_task chatting))
        chatting = Some σ'
      ∧ trace σ' = trace chatting
          ++ [mkEmission {["bob"]} (EvRoomHistory history);
              mkEmission ({["bob"]} ∪ members "general" chatting)
                (EvActiveUsers n)]
      ∧ history = filter (λ r, Message.room_id r = "general") (store chatting)
      ∧ row_msg <$> history = committed "general" (store chatting).
Proof.
  assert (H1 : "bob" ∈ connected chatting) by (vm_compute; reflexivity).
  assert (H2 : clock_increasing (store chatting)).
  { vm_compute. repeat constructor. }
  exact (conj H1 (conj H2 (history_in_commit_order chatting "bob" "general"
                             "bob@chat.io" H1 H2))).
Defined.
End Clock.

(** * The HTTP routes *)

Section Routes.
Implicit Types (db : Db) (userEmail : string).

Lemma get_rooms_succeeds userEmail db :
  get_rooms userEmail Succeed Succeed db
  = Json (select_rooms_in (select_participations userEmail db) db).
Proof.
  unfold get_rooms, get_rooms_handler. simpl.
  destruct (select_participations userEmail db) as [|i ids]; [|done].
  unfold select_rooms_in. f_equal.
  induction (db_rooms db) as [|r rs IH]; [done|].
  rewrite filter_cons, decide_False; [exact IH|]. apply not_elem_of_nil.
Qed.

Lemma elem_of_listed userEmail db v :
  v ∈ select_rooms_in (select_participations userEmail db) db
  ↔ ∃ row p, row ∈ db_rooms db ∧ p ∈ db_participants db
             ∧ Participant.user_email p = userEmail
             ∧ Participant.room_id p = RoomRow.id row
             ∧ v = room_view row.
Proof.
  unfold select_rooms_in, select_participations.
  rewrite list_elem_of_fmap. split.
  - intros (row & -> & [Hin Hrow]%list_elem_of_filter).
    apply list_elem_of_fmap in Hin as (p & Heq & [Hu Hp]%list_elem_of_filter).
    by exists row, p.
  - intros (row & p & Hrow & Hp & Hu & Hid & ->).
    exists row. split; [done|]. apply list_elem_of_filter. split; [|done].
    rewrite <- Hid. apply list_elem_of_fmap_2. by apply list_elem_of_filter.
Qed.

(** The room a successful POST created is among the rooms of everyone the
    body named. *)
Lemma posted_room_listed body id created_at socks db email :
  email ∈ cr_participants body ++ [creatorEmail body] →
  let db' := db_after (post_rooms body id created_at Succeed Succeed socks db)
  in
  Room.mk id (cr_name body) created_at
  ∈ select_rooms_in (select_participations email db') db'.
Proof.
  intros Hin db'. apply elem_of_listed.
  exists (RoomRow.mk id (cr_name body) (createdBy body) created_at),
    (Participant.mk id email). simpl.
  split; [apply elem_of_app; right; by apply list_elem_of_singleton|].
  split; [|done]. apply elem_of_app. right.
  by apply (list_elem_of_fmap_2 (λ e, Participant.mk id e)).
Qed.

(** X10: when both queries succeed, [GET /api/rooms/:userEmail] answers
    with exactly the rooms of the table in which the user has a row of
    [room_participants]: each of them, and no other. *)
Theorem get_rooms_lists_the_users_rooms userEmail db :
  ∃ listed,
    get_rooms userEmail Succeed Succeed db = Json listed
    ∧ ∀ v, v ∈ listed ↔
        ∃ row p, row ∈ db_rooms db ∧ p ∈ db_participants db
                 ∧ Participant.user_email p = userEmail
                 ∧ Participant.room_id p = RoomRow.id row
                 ∧ v = room_view row.
Proof.
  exists (select_rooms_in (select_participations userEmail db) db).
  split; [apply get_rooms_succeeds|]. intros v. apply elem_of_listed.
Qed.

(** X11: [GET /api/rooms/:userEmail] answers 500 exactly when the query on
    [room_participants] fails, or the user has a participation and the query
    on [rooms] fails; a user without participations gets the empty list
    whatever the second query would do. *)
Theorem get_rooms_fails_iff userEmail o1 o2 db :
  get_rooms userEmail o1 o2 db = Status500 "Failed to fetch rooms"
  ↔ o1 ≠ Succeed
    ∨ (o2 ≠ Succeed
       ∧ ∃ p, p ∈ db_participants db ∧ Participant.user_email p = userEmail).
Proof.
  unfold get_rooms, get_rooms_handler.
  assert (Hsome : (∃ p, p ∈ db_participants db
                        ∧ Participant.user_email p = userEmail)
                  ↔ select_participations userEmail db ≠ []).
  { unfold select_participations. split.
    - intros (p & Hp & Hu) Hnil.
      assert (H : Participant.room_id p ∈ @nil string); [|by apply elem_of_nil in H].
      rewrite <- Hnil. apply list_elem_of_fmap_2. by apply list_elem_of_filter.
    - destruct (filter _ _) as [|p ps] eqn:Hf; [done|]. intros _.
      assert (Hp : p ∈ filter (λ p, Participant.user_email p = userEmail)
                     (db_participants db)) by (rewrite Hf; by left).
      apply list_elem_of_filter in Hp as [? ?]. by exists p. }
  rewrite Hsome.
  destruct o1; simpl; [|split; [by left|done]..].
  destruct (select_participations userEmail db) as [|i ids]; simpl.
  - split; [done|]. intros [?|[_ ?]]; done.
  - destruct o2; simpl.
    + split; [done|]. intros [?|[? _]]; done.
    + split; [|done]. intros _. right. by split.
    + split; [|done]. intros _. right. by split.
Qed.

(** X12: after a [POST /api/rooms] whose two inserts succeed, the answer
    is the new row, and the GET route of the creator and of every participant
    named in the body lists the new room. *)
Theorem created_room_is_listed body id created_at socks db email :
  email ∈ cr_participants body ++ [creatorEmail body] →
  let posted := post_rooms body id created_at Succeed Succeed socks db in
  let room := RoomRow.mk id (cr_name body) (createdBy body) created_at in
  response posted = Json room
  ∧ ∃ listed,
      get_rooms email Succeed Succeed (db_after posted) = Json listed
      ∧ room_view room ∈ listed.
Proof.
  intros Hin posted room. split; [done|].
  eexists. split; [apply get_rooms_succeeds|].
  by apply (posted_room_listed body id created_at socks db email).
Qed.

Lemma created_room_is_listed_witness :
  "carol@chat.io" ∈ cr_participants team_room ++ [creatorEmail team_room]
  ∧ response (post_rooms team_room "r3" 30 Succeed Succeed ∅ two_rooms_db)
    = Json (RoomRow.mk "r3" "team" "u-alice" 30)
  ∧ ∃ listed,
      get_rooms "carol@chat.io" Succeed Succeed
        (db_after (post_rooms team_room "r3" 30 Succeed Succeed ∅
                     two_rooms_db)) = Json listed
      ∧ Room.mk "r3" "team" 30 ∈ listed.
Proof.
  assert (H : "carol@chat.io"
              ∈ cr_participants team_room ++ [creatorEmail team_room]).
  { apply (bool_decide_unpack _). vm_compute. exact I. }
  exact (conj H (created_room_is_listed team_room "r3" 30 ∅ two_rooms_db
                   "carol@chat.io" H)).
Defined.

(** X13: the route is not atomic.  When the insert of the room succeeds and
    the insert of the participants fails, the answer is 500 and no
    [new-room] is emitted, but the room stays in the table with no
    participant; if its id is new to [room_participants], no user's GET
    lists it. *)
Theorem failed_participants_orphan_the_room body id created_at o2 socks db :
  o2 ≠ Succeed →
  (∀ p, p ∈ db_participants db → Participant.room_id p ≠ id) →
  let posted := post_rooms body id created_at Succeed o2 socks db in
  response posted = Status500 "Failed to create room"
  ∧ new_room posted = None
  ∧ db_rooms (db_after posted)
    = db_rooms db
      ++ [RoomRow.mk id (cr_name body) (createdBy body) created_at]
  ∧ db_participants (db_after posted) = db_participants db
  ∧ ∀ userEmail listed,
      get_rooms userEmail Succeed Succeed (db_after posted) = Json listed →
      ∀ v, v ∈ listed → Room.id v ≠ id.
Proof.
  intros Ho Hfresh posted.
  assert (Hpost : posted
                  = {| response := Status500 "Failed to create room";
                       db_after :=
                         {| db_rooms := db_rooms db
                              ++ [RoomRow.mk id (cr_name body) (createdBy body)
                                    created_at];
                            db_participants := db_participants db |};
                       new_room := None |}).
  { unfold posted, post_rooms. by destruct o2. }
  rewrite Hpost. simpl. repeat split; try done.
  intros userEmail listed Hget v Hv.
  rewrite get_rooms_succeeds in Hget. simplify_eq.
  apply elem_of_listed in Hv as (row & p & _ & Hp & _ & Hid & ->). simpl in *.
  rewrite <- Hid. by apply Hfresh.
Qed.

Lemma failed_participants_orphan_the_room_witness :
  Fail ≠ Succeed
  ∧ (∀ p, p ∈ db_participants two_rooms_db → Participant.room_id p ≠ "r3")
  ∧ response (post_rooms team_room "r3" 30 Succeed Fail ∅ two_rooms_db)
    = Status500 "Failed to create room"
  ∧ db_rooms (db_after (post_rooms team_room "r3" 30 Succeed Fail ∅
                          two_rooms_db))
    = db_rooms two_rooms_db ++ [RoomRow.mk "r3" "team" "u-alice" 30].
Proof.
  assert (H1 : Fail ≠ Succeed) by discriminate.
  assert (H2 : ∀ p, p ∈ db_participants two_rooms_db →
                    Participant.room_id p ≠ "r3").
  { intros p Hp. simpl in Hp.
    repeat (apply elem_of_cons in Hp as [->|Hp]; [discriminate|]).
    by apply elem_of_nil in Hp. }
  destruct (failed_participants_orphan_the_room team_room "r3" 30 Fail ∅
              two_rooms_db H1 H2) as (Hr & _ & Hrooms & _).
  exact (conj H1 (conj H2 (conj Hr Hrooms))).
Defined.

(** X14: [new-room] goes to every open socket, whoever its user is, and
    carries the emails of all participants, the creator's last; a client
    fetches its rooms again exactly when its user is one of them, so the
    creator's client always does. *)
Theorem new_room_reaches_every_socket body id created_at socks db userEmail :
  let posted := post_rooms body id created_at Succeed Succeed socks db in
  ∃ data,
    new_room posted = Some (socks, data)
    ∧ Participant.user_email <$> nr_participants data
      = cr_participants body ++ [creatorEmail body]
    ∧ Forall (λ p, Participant.room_id p = id) (nr_participants data)
    ∧ (handleNewRoom userEmail data = true
       ↔ userEmail ∈ cr_participants body ++ [creatorEmail body])
    ∧ handleNewRoom (creatorEmail body) data = true.
Proof.
  intros posted. eexists. split; [reflexivity|]. simpl.
  assert (Hwho : ∀ u,
    handleNewRoom u
      (mkNewRoom (RoomRow.mk id (cr_name body) (createdBy body) created_at)
         ((λ email, Participant.mk id email)
            <$> (cr_participants body ++ [creatorEmail body]))) = true
    ↔ u ∈ cr_participants body ++ [creatorEmail body]).
  { intros u. unfold handleNewRoom. simpl.
    rewrite bool_decide_eq_true, Exists_exists. split.
    - intros (p & Hp & Hu). apply list_elem_of_fmap in Hp as (e & -> & He).
      simpl in Hu. by subst.
    - intros Hu. exists (Participant.mk id u). split; [|done].
      by apply (list_elem_of_fmap_2 (λ e, Participant.mk id e)). }
  split.
  { rewrite <- list_fmap_compose. simpl. apply list_fmap_id. }
  split.
  { apply Forall_fmap, Forall_forall. done. }
  split; [apply Hwho|]. apply Hwho, elem_of_app. right.
  by apply list_elem_of_singleton.
Qed.
End Routes.

(** * The client *)

Section Strings.
Implicit Types (s t : string) (c : ascii).

Lemma trimStart_empty s : trimStart s = EmptyString ↔ all_space s = true.
Proof.
  induction s as [|c s IH]; simpl; [done|].
  destruct (is_space c); simpl; [exact IH|done].
Qed.

Lemma trimEnd_empty s : trimEnd s = EmptyString ↔ all_space s = true.
Proof.
  induction s as [|c s IH]; simpl; [done|].
  destruct (trimEnd s) as [|d t] eqn:Ht.
  - destruct (is_space c); simpl; [|done]. split; [intros _; by apply IH|done].
  - split; [done|]. intros [_ H]%andb_true_iff. apply IH in H. done.
Qed.

(** The head of a string is not white space. *)
Definition head_kept s : Prop :=
  match s with
  | EmptyString => True
  | String c _ => is_space c = false
  end.

Lemma head_kept_trimStart s : head_kept (trimStart s).
Proof.
  induction s as [|c s IH]; simpl; [done|].
  destruct (is_space c) eqn:Hc; [exact IH|exact Hc].
Qed.

Lemma trimStart_head_kept s : head_kept s → trimStart s = s.
Proof. destruct s as [|c s]; simpl; [done|]. by intros ->. Qed.

Lemma head_kept_trimEnd s : head_kept s → head_kept (trimEnd s).
Proof.
  destruct s as [|c s]; simpl; [done|]. intros Hc. rewrite Hc.
  by destruct (trimEnd s).
Qed.

Lemma trimEnd_idemp s : trimEnd (trimEnd s) = trimEnd s.
Proof.
  induction s as [|c s IH]; simpl; [done|].
  destruct (trimEnd s) as [|d t] eqn:Ht.
  - destruct (is_space c) eqn:Hc; simpl; [done|]. by rewrite Hc.
  - change (trimEnd (String c (String d t))) with
      (match trimEnd (String d t) with
       | EmptyString => if is_space c then EmptyString else String c EmptyString
       | t' => String c t'
       end).
    by rewrite IH.
Qed.

Lemma trim_idemp s : trim (trim s) = trim s.
Proof.
  unfold trim. rewrite (trimStart_head_kept (trimEnd (trimStart s))).
  - apply trimEnd_idemp.
  - apply head_kept_trimEnd, head_kept_trimStart.
Qed.

Lemma trim_empty s : trim s = EmptyString ↔ all_space s = true.
Proof.
  unfold trim. split.
  - intros H%trimEnd_empty. apply trimStart_empty.
    pose proof (head_kept_trimStart s) as Hk.
    destruct (trimStart s) as [|c t]; [done|]. simpl in *.
    by rewrite Hk in H.
  - intros H%trimStart_empty. by rewrite H.
Qed.

Lemma contains_trimStart c s : contains c s = false → contains c (trimStart s) = false.
Proof.
  induction s as [|d s IH]; simpl; [done|].
  intros [Hd Hs]%orb_false_iff. destruct (is_space d); [by apply IH|].
  simpl. by rewrite Hd, Hs.
Qed.

Lemma contains_trimEnd c s : contains c s = false → contains c (trimEnd s) = false.
Proof.
  induction s as [|d s IH]; simpl; [done|].
  intros [Hd Hs]%orb_false_iff. specialize (IH Hs).
  destruct (trimEnd s) as [|d' t].
  - destruct (is_space d); simpl; [done|]. by rewrite Hd.
  - simpl in *. by rewrite Hd, IH.
Qed.

Lemma contains_trim c s : contains c s = false → contains c (trim s) = false.
Proof. intros H. by apply contains_trimEnd, contains_trimStart. Qed.

Lemma split_nonempty c s : split c s ≠ [].
Proof.
  destruct s as [|d s]; simpl; [done|]. case_decide; [done|].
  by destruct (split c s).
Qed.

Lemma split_pieces c s : Forall (λ p, contains c p = false) (split c s).
Proof.
  induction s as [|d s IH]; simpl.
  - by repeat constructor.
  - case_decide.
    + constructor; [done|exact IH].
    + destruct (split c s) as [|p ps].
      * repeat constructor. simpl. by rewrite bool_decide_eq_false_2.
      * apply Forall_cons in IH as [Hp Hps]. constructor; [|done].
        simpl. by rewrite bool_decide_eq_false_2.
Qed.

Lemma split_free c s : contains c s = false → split c s = [s].
Proof.
  induction s as [|d s IH]; simpl; [done|].
  intros [Hd Hs]%orb_false_iff. apply bool_decide_eq_false in Hd.
  rewrite decide_False by done. by rewrite IH.
Qed.

Lemma split_app c s t :
  contains c s = false →
  split c (s +:+ String c t) = s :: split c t.
Proof.
  induction s as [|d s IH]; simpl.
  - intros _. by rewrite decide_True.
  - intros [Hd Hs]%orb_false_iff. apply bool_decide_eq_false in Hd.
    rewrite decide_False by done. by rewrite IH.
Qed.

Lemma split_concat c (l : list string) :
  l ≠ [] → Forall (λ p, contains c p = false) l →
  split c (String.concat (String c EmptyString) l) = l.
Proof.
  induction l as [|p l IH]; [done|]. intros _ [Hp Hl]%Forall_cons.
  destruct l as [|q l].
  - simpl. by apply split_free.
  - change (String.concat (String c EmptyString) (p :: q :: l))
      with (p +:+ String c (String.concat (String c EmptyString) (q :: l))).
    rewrite split_app by done. f_equal. by apply IH.
Qed.
End Strings.

Section Parsing.
Implicit Types (s email : string).

(** X15: every address [createRoom] takes from the participants field is
    non-empty, has no white space at either end and holds no comma. *)
Theorem participantEmails_tidy s email :
  email ∈ participantEmails s → tidy email.
Proof.
  unfold participantEmails. intros [Hne Hin]%list_elem_of_filter.
  apply list_elem_of_fmap in Hin as (p & -> & Hp).
  split; [done|]. split; [apply trim_idemp|].
  apply contains_trim. pose proof (split_pieces ","%char s) as Hall.
  rewrite Forall_forall in Hall. by apply Hall.
Qed.

Lemma participantEmails_tidy_witness :
  "carol@chat.io" ∈ participantEmails " bob@chat.io ,, carol@chat.io,"
  ∧ tidy "carol@chat.io".
Proof.
  assert (H : "carol@chat.io"
              ∈ participantEmails " bob@chat.io ,, carol@chat.io,").
  { apply (bool_decide_unpack _). vm_compute. exact I. }
  exact (conj H (participantEmails_tidy _ _ H)).
Defined.

(** X16: addresses that are non-empty, trimmed and free of commas come back
    as they are, in order, when typed separated by commas. *)
Theorem participantEmails_of_joined (emails : list string) :
  Forall tidy emails →
  participantEmails (String.concat "," emails) = emails.
Proof.
  intros Hall. unfold participantEmails. destruct emails as [|e emails].
  { reflexivity. }
  rewrite (split_concat ","%char (e :: emails)); [|done|].
  - assert (Htrim : trim <$> (e :: emails) = e :: emails).
    { clear -Hall. induction Hall as [|x l (_ & Hx & _) _ IH]; [done|].
      rewrite fmap_cons, Hx, IH. done. }
    rewrite Htrim. clear Htrim.
    induction Hall as [|x l (Hx & _ & _) _ IH]; [done|].
    rewrite filter_cons, decide_True by done. by rewrite IH.
  - eapply Forall_impl; [exact Hall|]. by intros x (_ & _ & ?).
Qed.
Lemma participantEmails_of_joined_witness :
  Forall tidy ["bob@chat.io"; "carol@chat.io"]
  ∧ participantEmails "bob@chat.io,carol@chat.io"
    = ["bob@chat.io"; "carol@chat.io"].
Proof.
  assert (H : Forall tidy ["bob@chat.io"; "carol@chat.io"]).
  { repeat constructor; try discriminate; vm_compute; reflexivity. }
  exact (conj H (participantEmails_of_joined _ H)).
Defined.
End Parsing.

Section ClientAndServer.
Implicit Types (σ : State) (c : Client.t) (sid : string).

(** X17: the client emits [send-message] exactly when a room is selected and
    the draft has a character that is not white space; the payload is the id
    of the selected room, the user's email and the draft as typed, untrimmed,
    and the draft is then cleared. *)
Theorem sendMessage_needs_text_and_room c :
  ((sendMessage c).2 = None
   ↔ all_space (Client.newMessage c) = true ∨ Client.selectedRoom c = None)
  ∧ ∀ payload, (sendMessage c).2 = Some payload →
      ∃ room, Client.selectedRoom c = Some room
        ∧ payload = (Room.id room, Client.email c, Client.newMessage c)
        ∧ all_space (Client.newMessage c) = false
        ∧ Client.newMessage (sendMessage c).1 = EmptyString.
Proof.
  unfold sendMessage. rewrite <- trim_empty.
  destruct (decide (trim (Client.newMessage c) = EmptyString)) as [Hb|Hb].
  - split; [split; [by left|done]|]. done.
  - assert (Hs : all_space (Client.newMessage c) = false).
    { destruct (all_space _) eqn:H; [|done]. by apply trim_empty in H. }
    destruct (Client.selectedRoom c) as [room|]; simpl.
    + split; [split; [done|by intros [?|?]]|].
      intros payload ?; simplify_eq. by exists room.
    + split; [split; [by right|done]|]. done.
Qed.

(** X18: when the user selects a room and the server handles the
    [join-room] to its end, the client shows exactly the stored messages of
    that room, in [created_at] order, and its listener is gone. *)
Theorem selected_room_shows_its_history σ sid c room :
  sid ∈ connected σ →
  let c1 := (selectRoom room c).1 in
  let join := (selectRoom room c).2 in
  ∃ σ',
    run (join_alone sid join.1 join.2 (next_task σ)) σ = Some σ'
    ∧ let c' := deliver_history sid (drop (length (trace σ)) (trace σ')) c1 in
      Client.selectedRoom c' = Some room
      ∧ Client.messages c' = select_messages (Room.id room) (store σ)
      ∧ Client.history_listener c' = false.
Proof.
  intros Hc. simpl.
  destruct (join_alone_run σ sid (Room.id room) (Client.email c) Hc)
    as (σ' & Hrun & _ & _ & _ & _ & _ & _ & Htrace).
  exists σ'. split; [exact Hrun|].
  rewrite Htrace, drop_app_length. simpl.
  rewrite decide_True by set_solver. done.
Qed.

Lemma selected_room_shows_its_history_witness :
  "bob" ∈ connected chatting
  ∧ ∃ σ',
      run (join_alone "bob" "general" "alice@chat.io" (next_task chatting))
        chatting = Some σ'
      ∧ let c' := deliver_history "bob"
                    (drop (length (trace chatting)) (trace σ'))
                    (selectRoom (Room.mk "general" "lobby" 10) alice_client).1
        in
        Client.selectedRoom c' = Some (Room.mk "general" "lobby" 10)
        ∧ Client.messages c' = select_messages "general" (store chatting)
        ∧ Client.history_listener c' = false.
Proof.
  assert (H : "bob" ∈ connected chatting) by (vm_compute; reflexivity).
  exact (conj H (selected_room_shows_its_history chatting "bob" alice_client
                   (Room.mk "general" "lobby" 10) H)).
Defined.

(** X19: when the user selects room A and then room B before the history of
    A has arrived, and the server handles the two joins in that order, the
    client ends with room B selected and the stored messages of room A
    shown: the history of A is taken by the listener of B, and the history of
    B finds no listener. *)
Theorem late_history_lands_in_the_next_room σ sid c roomA roomB :
  sid ∈ connected σ →
  let c1 := (selectRoom roomA c).1 in
  let joinA := (selectRoom roomA c).2 in
  let c2 := (selectRoom roomB c1).1 in
  let joinB := (selectRoom roomB c1).2 in
  ∃ σ1 σ2,
    run (join_alone sid joinA.1 joinA.2 (next_task σ)) σ = Some σ1
    ∧ run (join_alone sid joinB.1 joinB.2 (next_task σ1)) σ1 = Some σ2
    ∧ let c' := deliver_history sid (drop (length (trace σ)) (trace σ2)) c2 in
      Client.selectedRoom c' = Some roomB
      ∧ Client.messages c' = select_messages (Room.id roomA) (store σ)
      ∧ Client.history_listener c' = false.
Proof.
  intros Hc. simpl.
  destruct (join_alone_run σ sid (Room.id roomA) (Client.email c) Hc)
    as (σ1 & Hrun1 & _ & Hcon1 & _ & Hstore1 & _ & _ & Htrace1).
  assert (Hc1 : sid ∈ connected σ1) by by rewrite Hcon1.
  destruct (join_alone_run σ1 sid (Room.id roomB) (Client.email c) Hc1)
    as (σ2 & Hrun2 & _ & _ & _ & _ & _ & _ & Htrace2).
  exists σ1, σ2. split; [exact Hrun1|]. split; [exact Hrun2|].
  rewrite Htrace2, Htrace1, <- app_assoc, drop_app_length. simpl.
  rewrite !decide_True by set_solver. done.
Qed.

Lemma late_history_lands_in_the_next_room_witness :
  "bob" ∈ connected chatting
  ∧ ∃ σ1 σ2,
      run (join_alone "bob" "general" "alice@chat.io" (next_task chatting))
        chatting = Some σ1
      ∧ run (join_alone "bob" "random" "alice@chat.io" (next_task σ1)) σ1
        = Some σ2
      ∧ let c' := deliver_history "bob"
                    (drop (length (trace chatting)) (trace σ2))
                    (selectRoom (Room.mk "random" "misc" 20)
                       (selectRoom (Room.mk "general" "lobby" 10)
                          alice_client).1).1
        in
        Client.selectedRoom c' = Some (Room.mk "random" "misc" 20)
        ∧ Client.messages c' = select_messages "general" (store chatting)
        ∧ Client.history_listener c' = false.
Proof.
  assert (H : "bob" ∈ connected chatting) by (vm_compute; reflexivity).
  exact (conj H (late_history_lands_in_the_next_room chatting "bob"
                   alice_client (Room.mk "general" "lobby" 10)
                   (Room.mk "random" "misc" 20) H)).
Defined.

(** X20: when the client's [createRoom] posts a room (the name has a
    character that is not white space) and both inserts succeed, the GET route
    of the user and of every address parsed from the participants field lists
    the room, under the name as typed. *)
Theorem createRoom_then_everyone_named_lists_it
    c body id created_at socks db email :
  createRoom c = Some body →
  email = Client.email c ∨ email ∈ participantEmails (Client.participants c) →
  all_space (Client.newRoomName c) = false
  ∧ ∃ listed,
      get_rooms email Succeed Succeed
        (db_after (post_rooms body id created_at Succeed Succeed socks db))
      = Json listed
      ∧ Room.mk id (Client.newRoomName c) created_at ∈ listed.
Proof.
  unfold createRoom. case_decide as Hb; [done|]. intros ? Hin; simplify_eq.
  split.
  { destruct (all_space _) eqn:H; [|done]. by apply trim_empty in H. }
  set (body := {| cr_name := Client.newRoomName c;
                  createdBy := Client.user_id c;
                  creatorEmail := Client.email c;
                  cr_participants :=
                    participantEmails (Client.participants c) |}).
  assert (Hin' : email ∈ cr_participants body ++ [creatorEmail body]).
  { simpl. apply elem_of_app. destruct Hin as [->|Hin]; [right|by left].
    by apply list_elem_of_singleton. }
  eexists. split; [apply get_rooms_succeeds|].
  by apply (posted_room_listed body id created_at socks db email).
Qed.

Lemma createRoom_then_everyone_named_lists_it_witness :
  let body := {| cr_name := "team"; createdBy := "u-alice";
                 creatorEmail := "alice@chat.io";
                 cr_participants := ["bob@chat.io"; "carol@chat.io"] |} in
  createRoom alice_client = Some body
  ∧ ("carol@chat.io" = Client.email alice_client
     ∨ "carol@chat.io" ∈ participantEmails (Client.participants alice_client))
  ∧ all_space (Client.newRoomName alice_client) = false
  ∧ ∃ listed,
      get_rooms "carol@chat.io" Succeed Succeed
        (db_after (post_rooms body "r3" 30 Succeed Succeed ∅ two_rooms_db))
      = Json listed
      ∧ Room.mk "r3" (Client.newRoomName alice_client) 30 ∈ listed.
Proof.
  intros body.
  assert (H1 : createRoom alice_client = Some body)
    by (vm_compute; reflexivity).
  assert (H2 : "carol@chat.io" = Client.email alice_client
               ∨ "carol@chat.io"
                 ∈ participantEmails (Client.participants alice_client)).
  { right. apply (bool_decide_unpack _). vm_compute. exact I. }
  exact (conj H1 (conj H2
           (createRoom_then_everyone_named_lists_it alice_client body "r3" 30
              ∅ two_rooms_db "carol@chat.io" H1 H2))).
Defined.
End ClientAndServer.

(** * The order of a room's messages *)

Section Order.
Implicit Types (σ : State) (roomId : string).

Lemma slots_below_step a σ σ' :
  step a σ = Some σ' → slots_below σ → slots_below σ'.
Proof.
  intros Hs Hb. step_cases Hs; try exact Hb.
  all: intros tid' t'; slot_lookup;
    first [ done
          | intros ?; simplify_eq; simpl; first [lia | by eapply Hb]
          | intros Ht'; apply Hb in Ht'; simpl; lia ].
Qed.

Lemma broadcast_app roomId tr1 tr2 :
  broadcast roomId (tr1 ++ tr2) = broadcast roomId tr1 ++ broadcast roomId tr2.
Proof.
  induction tr1 as [|[aud ev] tr1 IH]; simpl; [done|].
  destruct ev; try done. case_decide; simpl; by rewrite IH.
Qed.

Lemma observed_sublist_broadcast (who : string) roomId tr :
  observed who roomId tr `sublist_of` broadcast roomId tr.
Proof.
  induction tr as [|[aud ev] tr IH]; simpl; [done|].
  destruct ev; try done.
  destruct (decide (Msg.room_id msg = roomId)) as [Hr|Hr].
  - case_decide; [by constructor|by apply sublist_cons_r; left].
  - rewrite decide_False; [done|]. by intros [_ ?].
Qed.

Lemma broadcast_step roomId a σ σ' :
  step a σ = Some σ' →
  broadcast roomId (trace σ') = broadcast roomId (trace σ) ++ returns roomId a σ.
Proof.
  intros Hs. step_cases Hs.
  all: try (simpl; by rewrite app_nil_r).
  all: unfold returns; rewrite Ht; simpl; rewrite broadcast_app; simpl;
    try done.
Qed.

Lemma broadcast_returned roomId acts σ σ' :
  run acts σ = Some σ' →
  broadcast roomId (trace σ')
  = broadcast roomId (trace σ) ++ returned roomId acts σ.
Proof.
  revert σ. induction acts as [|a acts IH]; intros σ Hrun; simpl in Hrun.
  - simplify_eq. simpl. by rewrite app_nil_r.
  - destruct (step a σ) as [σ1|] eqn:Ha; [|done].
    change (returned roomId (a :: acts) σ)
      with (returns roomId a σ
            ++ match step a σ with
               | Some σ' => returned roomId acts σ'
               | None => []
               end).
    rewrite Ha, (IH _ Hrun), (broadcast_step _ _ _ _ Ha), app_assoc. done.
Qed.

Lemma returned_app roomId acts1 acts2 σ σ1 :
  run acts1 σ = Some σ1 →
  returned roomId (acts1 ++ acts2) σ
  = returned roomId acts1 σ ++ returned roomId acts2 σ1.
Proof.
  revert σ. induction acts1 as [|a acts1 IH]; intros σ Hrun; simpl in Hrun.
  - by simplify_eq.
  - destruct (step a σ) as [σ'|] eqn:Ha; [|done].
    change (returned roomId ((a :: acts1) ++ acts2) σ)
      with (returns roomId a σ
            ++ match step a σ with
               | Some σ' => returned roomId (acts1 ++ acts2) σ'
               | None => []
               end).
    change (returned roomId (a :: acts1) σ)
      with (returns roomId a σ
            ++ match step a σ with
               | Some σ' => returned roomId acts1 σ'
               | None => []
               end).
    rewrite Ha, (IH _ Hrun), app_assoc. done.
Qed.

Lemma observed_step (who : string) roomId a σ σ' :
  step a σ = Some σ' → who ∈ members roomId σ →
  observed who roomId (trace σ')
  = observed who roomId (trace σ) ++ returns roomId a σ.
Proof.
  intros Hs Hin. step_cases Hs.
  all: try (simpl; by rewrite app_nil_r).
  all: unfold returns; rewrite Ht; simpl; rewrite observed_app; simpl;
    try done.
  destruct (decide (Msg.room_id m = roomId)) as [Hr|Hr].
  - rewrite decide_True; [done|]. split; [|done]. by rewrite Hr.
  - rewrite decide_False; [done|]. by intros [_ ?].
Qed.

Lemma observed_returned (who : string) roomId acts σ σ' :
  run acts σ = Some σ' →
  who ∈ members roomId σ →
  Disconnect who ∉ acts →
  observed who roomId (trace σ')
  = observed who roomId (trace σ) ++ returned roomId acts σ.
Proof.
  revert σ. induction acts as [|a acts IH]; intros σ Hrun Hin Hno;
    simpl in Hrun.
  - simplify_eq. simpl. by rewrite app_nil_r.
  - destruct (step a σ) as [σ1|] eqn:Ha; [|done].
    apply not_elem_of_cons in Hno as [Hne Hno].
    change (returned roomId (a :: acts) σ)
      with (returns roomId a σ
            ++ match step a σ with
               | Some σ' => returned roomId acts σ'
               | None => []
               end).
    rewrite Ha, (IH _ Hrun), (observed_step _ _ _ _ _ Ha Hin), app_assoc;
      [done| |done].
    eapply members_kept_step; eauto.
Qed.

Lemma committed_app roomId tbl1 tbl2 :
  committed roomId (tbl1 ++ tbl2)
  = committed roomId tbl1 ++ committed roomId tbl2.
Proof. unfold committed. by rewrite filter_app, fmap_app. Qed.

Lemma committed_other roomId m tbl :
  Msg.room_id m ≠ roomId → committed roomId [insert_row m tbl] = [].
Proof. intros Hne. unfold committed. by rewrite filter_cons, decide_False. Qed.

Lemma committed_same roomId m tbl :
  Msg.room_id m = roomId → committed roomId [insert_row m tbl] = [m].
Proof.
  intros He. unfold committed. rewrite filter_cons, decide_True by done.
  simpl. by rewrite row_msg_insert_row.
Qed.

(** A segment that leaves the room's rows and broadcasts alone, and neither
    starts nor ends a flight of the room. *)
Lemma lined_up_frame roomId σ σ' :
  committed roomId (store σ') = committed roomId (store σ) →
  broadcast roomId (trace σ') = broadcast roomId (trace σ) →
  (∀ tid t, tasks σ' !! tid = Some t → in_flight roomId t = true →
            tasks σ !! tid = Some t) →
  (∀ tid t, tasks σ !! tid = Some t → in_flight roomId t = true →
            tasks σ' !! tid = Some t) →
  lined_up roomId σ → lined_up roomId σ'.
Proof.
  intros Hst Htr Hnew Hold (pend & Heq & Hpend).
  exists pend. split; [by rewrite Hst, Htr|].
  destruct Hpend as [[-> Hq]|(tid0 & sid0 & m0 & -> & Ht0 & Hr0 & Huniq)].
  - left. split; [done|]. intros tid t Ht.
    destruct (in_flight roomId t) eqn:Hf; [|done].
    by rewrite (Hq tid t (Hnew _ _ Ht Hf)) in Hf.
  - right. exists tid0, sid0, m0. split; [done|]. split.
    + apply Hold; [done|]. simpl. by rewrite bool_decide_eq_true_2.
    + split; [done|]. intros tid' t Ht Hf. eapply Huniq; eauto.
Qed.

Lemma lined_up_step roomId a σ σ' :
  step a σ = Some σ' →
  (commits roomId a σ = true → quiet roomId σ) →
  slots_below σ →
  lined_up roomId σ → lined_up roomId σ'.
Proof.
  intros Hs Hc Hb Hinv.
  assert (Hfree : tasks σ !! next_task σ = None).
  { destruct (tasks σ !! next_task σ) as [t|] eqn:Hn; [|done].
    apply Hb in Hn. lia. }
  step_cases Hs.
  (* segments that touch neither the room's rows nor its broadcasts *)
  all: try (apply (lined_up_frame roomId σ); [| | | |exact Hinv];
    [ done
    | first [done | simpl; rewrite broadcast_app; simpl; by rewrite app_nil_r]
    | intros tid' t'; slot_lookup; first [done | by intros; simplify_eq]
    | intros tid' t'; slot_lookup;
      first [done | by intros; simplify_eq | intros; simplify_eq; done] ];
    fail).
  all: try (apply (lined_up_frame roomId σ); [done|done| | |exact Hinv];
    intros tid' t'; slot_lookup; first [done | by intros; simplify_eq]; fail).
  - (* the insert commits *)
    destruct (decide (Msg.room_id m = roomId)) as [Hr|Hr].
    + assert (Hq : quiet roomId σ).
      { apply Hc. unfold commits. rewrite Ht. by apply bool_decide_eq_true_2. }
      destruct Hinv as (pend & Heq & [[-> _]|(tid0 & ? & ? & _ & Ht0 & Hr0 & _)]).
      2:{ apply Hq in Ht0. simpl in Ht0.
          by rewrite bool_decide_eq_true_2 in Ht0. }
      exists [m]. split.
      { simpl. rewrite committed_app, Heq, committed_same by done.
        by rewrite app_nil_r. }
      right. exists tid, s, m. split; [done|]. split.
      { simpl. by rewrite lookup_insert_eq. }
      split; [done|]. intros tid' t'. slot_lookup; [done|].
      intros Ht' Hf. apply Hq in Ht'. by rewrite Ht' in Hf.
    + apply (lined_up_frame roomId σ); [| | | |exact Hinv].
      * simpl. rewrite committed_app, committed_other by done.
        by rewrite app_nil_r.
      * done.
      * intros tid' t'. slot_lookup; [|done]. intros ? Hf; simplify_eq.
        simpl in Hf. by rewrite bool_decide_eq_false_2 in Hf.
      * intros tid' t'. slot_lookup; [|done]. intros; simplify_eq.
  - (* the broadcast *)
    destruct (decide (Msg.room_id m = roomId)) as [Hr|Hr].
    + destruct Hinv as (pend & Heq
                        & [[-> Hq]|(tid0 & sid0 & m0 & -> & Ht0 & Hr0 & Huniq)]).
      { apply Hq in Ht. simpl in Ht. by rewrite bool_decide_eq_true_2 in Ht. }
      assert (tid = tid0) as ->.
      { apply (Huniq _ _ Ht). simpl. by apply bool_decide_eq_true_2. }
      rewrite Ht0 in Ht. injection Ht as -> ->.
      exists []. split.
      { simpl. rewrite broadcast_app. simpl. rewrite decide_True by done.
        by rewrite app_nil_r. }
      left. split; [done|]. intros tid' t'. slot_lookup; [done|].
      intros Ht'. destruct (in_flight roomId t') eqn:Hf; [|done].
      by specialize (Huniq _ _ Ht' Hf).
    + apply (lined_up_frame roomId σ); [| | | |exact Hinv].
      * done.
      * simpl. rewrite broadcast_app. simpl. rewrite decide_False by done.
        by rewrite app_nil_r.
      * intros tid' t'. slot_lookup; [done|done].
      * intros tid' t'. slot_lookup; [|done]. intros ? Hf; simplify_eq.
        simpl in Hf. by rewrite bool_decide_eq_false_2 in Hf.
Qed.

Lemma lined_up_run roomId acts σ σ' :
  run acts σ = Some σ' →
  one_at_a_time roomId acts σ = true →
  slots_below σ →
  lined_up roomId σ → lined_up roomId σ'.
Proof.
  revert σ. induction acts as [|a acts IH]; intros σ Hrun Hone Hb Hinv;
    simpl in Hrun.
  - by simplify_eq.
  - destruct (step a σ) as [σ1|] eqn:Ha; [|done].
    change (one_at_a_time roomId (a :: acts) σ)
      with ((negb (commits roomId a σ) || bool_decide (quiet roomId σ))
            && match step a σ with
               | Some σ' => one_at_a_time roomId acts σ'
               | None => true
               end) in Hone.
    rewrite Ha in Hone. apply andb_true_iff in Hone as [Hq Hone].
    apply (IH σ1 Hrun Hone); [by eapply slots_below_step|].
    apply (lined_up_step _ _ _ _ Ha); [|done|done].
    intros Hc. rewrite Hc in Hq. simpl in Hq. by apply bool_decide_eq_true in Hq.
Qed.

Lemma lined_up_init roomId : lined_up roomId init.
Proof.
  exists []. split; [done|]. left. split; [done|].
  intros tid t H. simpl in H. by rewrite lookup_empty in H.
Qed.

Lemma one_at_a_time_app roomId acts1 acts2 σ :
  one_at_a_time roomId (acts1 ++ acts2) σ = true →
  one_at_a_time roomId acts1 σ = true.
Proof.
  revert σ. induction acts1 as [|a acts1 IH]; intros σ H; [done|].
  change (one_at_a_time roomId ((a :: acts1) ++ acts2) σ)
    with ((negb (commits roomId a σ) || bool_decide (quiet roomId σ))
          && match step a σ with
             | Some σ' => one_at_a_time roomId (acts1 ++ acts2) σ'
             | None => true
             end) in H.
  change (one_at_a_time roomId (a :: acts1) σ)
    with ((negb (commits roomId a σ) || bool_decide (quiet roomId σ))
          && match step a σ with
             | Some σ' => one_at_a_time roomId acts1 σ'
             | None => true
             end).
  apply andb_true_iff in H as [H1 H2]. rewrite H1. simpl.
  destruct (step a σ); [by apply IH|done].
Qed.

Lemma lined_up_quiet roomId σ :
  lined_up roomId σ →
  broadcast roomId (trace σ) `prefix_of` committed roomId (store σ)
  ∧ (quiet roomId σ →
     broadcast roomId (trace σ) = committed roomId (store σ)).
Proof.
  intros (pend & Heq & Hpend). split; [by exists pend|]. intros Hq.
  destruct Hpend as [[-> _]|(tid0 & ? & ? & _ & Ht0 & Hr0 & _)].
  - by rewrite Heq, app_nil_r.
  - apply Hq in Ht0. simpl in Ht0. by rewrite bool_decide_eq_true_2 in Ht0.
Qed.

Lemma lined_up_reachable roomId acts σ :
  run acts init = Some σ → one_at_a_time roomId acts init = true →
  lined_up roomId σ.
Proof.
  intros Hrun Hone. apply (lined_up_run roomId acts init σ Hrun Hone).
  - intros tid t H. simpl in H. by rewrite lookup_empty in H.
  - apply lined_up_init.
Qed.

(** C1, amended: the handler does not serialize sends; it broadcasts a
    message when its own insert returns.  In every run, whatever is
    interleaved, the [new-message] events of a room are emitted in the order
    in which the room's successful inserts return; a socket observes them in
    that order, and all of them while it is a member of the room and does not
    disconnect.  When the sends to the room are one at a time (the table
    commits a message of the room only when no other message of that room is
    between its commit and its broadcast), with the sends to other rooms
    interleaved freely, the broadcast order of the room is the table's commit
    order, and a member observes the room's new rows in exactly that
    order. *)
Theorem room_broadcast_follows_returns acts1 acts2 σ1 σ roomId (who : string) :
  run acts1 init = Some σ1 →
  run acts2 σ1 = Some σ →
  broadcast roomId (trace σ) = returned roomId (acts1 ++ acts2) init
  ∧ observed who roomId (trace σ) `sublist_of` broadcast roomId (trace σ)
  ∧ (who ∈ members roomId σ1 → Disconnect who ∉ acts2 →
     observed who roomId (trace σ)
     = observed who roomId (trace σ1) ++ returned roomId acts2 σ1)
  ∧ (one_at_a_time roomId (acts1 ++ acts2) init = true →
     broadcast roomId (trace σ) `prefix_of` committed roomId (store σ)
     ∧ (quiet roomId σ →
        broadcast roomId (trace σ) = committed roomId (store σ)))
  ∧ (one_at_a_time roomId (acts1 ++ acts2) init = true →
     quiet roomId σ1 → quiet roomId σ →
     who ∈ members roomId σ1 → Disconnect who ∉ acts2 →
     ∃ new,
       committed roomId (store σ) = committed roomId (store σ1) ++ new
       ∧ observed who roomId (trace σ)
         = observed who roomId (trace σ1) ++ new).
Proof.
  intros Hrun1 Hrun2.
  assert (Hrun : run (acts1 ++ acts2) init = Some σ)
    by (by rewrite run_app, Hrun1).
  split.
  { by rewrite (broadcast_returned roomId _ _ _ Hrun). }
  split; [apply observed_sublist_broadcast|].
  split; [by apply observed_returned|].
  split.
  { intros Hone. apply lined_up_quiet.
    by apply (lined_up_reachable roomId (acts1 ++ acts2)). }
  intros Hone Hq1 Hq Hin Hno. exists (returned roomId acts2 σ1).
  split; [|by apply observed_returned].
  pose proof (lined_up_reachable roomId _ _ Hrun Hone) as H.
  apply lined_up_quiet in H as [_ H]. rewrite <- (H Hq).
  pose proof (lined_up_reachable roomId _ _ Hrun1
                (one_at_a_time_app _ _ _ _ Hone)) as H1.
  apply lined_up_quiet in H1 as [_ H1]. rewrite <- (H1 Hq1).
  apply (broadcast_returned roomId _ _ _ Hrun2).
Qed.

Lemma room_broadcast_follows_returns_witness :
  let σ1 := after two_rooms_acts in
  let σ := run_on σ1 crossing_sends in
  run two_rooms_acts init = Some σ1
  ∧ run crossing_sends σ1 = Some σ
  ∧ "bob" ∈ members "general" σ1
  ∧ (Disconnect "bob" ∉ crossing_sends)
  ∧ one_at_a_time "general" (two_rooms_acts ++ crossing_sends) init = true
  ∧ quiet "general" σ1 ∧ quiet "general" σ
  ∧ committed "general" (store σ) = [hi; there]
  ∧ committed "random" (store σ) = [x_msg; y_msg]
  ∧ broadcast "random" (trace σ) = [y_msg; x_msg]
  ∧ broadcast "general" (trace σ)
    = returned "general" (two_rooms_acts ++ crossing_sends) init
  ∧ broadcast "general" (trace σ) = committed "general" (store σ)
  ∧ ∃ new,
      committed "general" (store σ) = committed "general" (store σ1) ++ new
      ∧ observed "bob" "general" (trace σ)
        = observed "bob" "general" (trace σ1) ++ new.
Proof.
  intros σ1 σ.
  assert (H1 : run two_rooms_acts init = Some σ1) by (vm_compute; reflexivity).
  assert (H2 : run crossing_sends σ1 = Some σ) by (vm_compute; reflexivity).
  assert (H3 : "bob" ∈ members "general" σ1) by (vm_compute; reflexivity).
  assert (H4 : Disconnect "bob" ∉ crossing_sends).
  { intros H. repeat (apply elem_of_cons in H as [H|H]; [discriminate H|]).
    by apply elem_of_nil in H. }
  assert (H5 : one_at_a_time "general" (two_rooms_acts ++ crossing_sends) init
               = true) by (vm_compute; reflexivity).
  assert (H6 : quiet "general" σ1).
  { apply (bool_decide_unpack _). vm_compute. exact I. }
  assert (H7 : quiet "general" σ).
  { apply (bool_decide_unpack _). vm_compute. exact I. }
  destruct (room_broadcast_follows_returns two_rooms_acts crossing_sends
              σ1 σ "general" "bob" H1 H2) as (HA & _ & _ & HC & HE).
  split; [exact H1|]. split; [exact H2|]. split; [exact H3|].
  split; [exact H4|]. split; [exact H5|]. split; [exact H6|].
  split; [exact H7|].
  split; [vm_compute; reflexivity|]. split; [vm_compute; reflexivity|].
  split; [vm_compute; reflexivity|]. split; [exact HA|].
  split; [exact (proj2 (HC H5) H7)|]. exact (HE H5 H6 H7 H3 H4).
Defined.
End Order.

(** * Persistence before broadcast *)

Section Accounting.
Implicit Types (σ : State) (ts : gmap nat Task).

Lemma pending_insert ts k t :
  ts !! k = None →
  pending (<[k:=t]> ts) ≡ₚ option_list (done_msg t) ++ pending ts.
Proof.
  intros Hk. unfold pending. rewrite (map_to_list_insert ts k t Hk). simpl.
  by destruct (done_msg t).
Qed.

Lemma pending_delete ts k t :
  ts !! k = Some t →
  pending ts ≡ₚ option_list (done_msg t) ++ pending (delete k ts).
Proof.
  intros Hk. unfold pending. rewrite <- (map_to_list_delete ts k t Hk). simpl.
  by destruct (done_msg t).
Qed.

Lemma pending_replace ts k t' :
  pending (<[k:=t']> ts) ≡ₚ option_list (done_msg t') ++ pending (delete k ts).
Proof.
  rewrite <- (insert_delete_eq ts k t'). apply pending_insert, lookup_delete_eq.
Qed.

Lemma broadcasts_snoc tr e :
  broadcasts (tr ++ [e])
  = broadcasts tr
    ++ match event e with EvNewMessage m => [m] | _ => [] end.
Proof. unfold broadcasts. rewrite omap_app. simpl. by destruct (event e). Qed.

Lemma accounted_step a σ σ' :
  step a σ = Some σ' → slots_below σ → accounted σ → accounted σ'.
Proof.
  intros Hs Hb Hacc. unfold accounted in *.
  assert (Hfree : tasks σ !! next_task σ = None).
  { destruct (tasks σ !! next_task σ) as [t|] eqn:Hn; [|done].
    apply Hb in Hn. lia. }
  step_cases Hs; try exact Hacc.
  all: simpl; try rewrite broadcasts_snoc; simpl; try rewrite app_nil_r.
  all: try (rewrite (pending_insert _ _ _ Hfree); exact Hacc).
  all: try (rewrite Hacc, (pending_delete _ _ _ Ht); simpl; done).
  all: try (rewrite pending_replace, Hacc, (pending_delete _ _ _ Ht); simpl;
            done).
  - (* the insert commits *)
    rewrite fmap_app, pending_replace, Hacc, (pending_delete _ _ _ Ht). simpl.
    rewrite row_msg_insert_row.
    rewrite (Permutation_app_comm _ [m]). simpl.
    by rewrite Permutation_middle.
  - (* the broadcast *)
    rewrite Hacc, (pending_delete _ _ _ Ht). simpl.
    rewrite <- app_assoc. done.
Qed.

Lemma accounted_reachable acts σ : run acts init = Some σ → accounted σ.
Proof.
  intros Hrun.
  cut (slots_below σ ∧ accounted σ); [by intros [_ ?]|].
  revert Hrun.
  apply (run_invariant (λ σ, slots_below σ ∧ accounted σ)).
  - intros a σ0 σ0' Hs [Hb Hacc]. split.
    + by eapply slots_below_step.
    + by eapply accounted_step.
  - split.
    + intros tid t H. simpl in H. by rewrite lookup_empty in H.
    + unfold accounted, pending. simpl. by rewrite map_to_list_empty.
Qed.

(** C5: persistence comes before any broadcast, and a failed write is the
    sender's business alone.  In every state the event loop can reach: row
    for row, the table holds exactly the messages broadcast so far and those
    whose successful insert is behind them and whose broadcast is ahead, so
    every broadcast has a row of its own; the part of [send-message] before
    the [await] stores and emits nothing; a handler whose insert has not
    settled cannot go on; one whose insert succeeded has its row in the table
    before it broadcasts; a failing insert leaves the table, the rooms and
    the trace as they are; and the handler resumed after it only emits
    [error] on the sender's socket. *)
Theorem persist_then_broadcast acts σ :
  run acts init = Some σ →
  row_msg <$> store σ ≡ₚ broadcasts (trace σ) ++ pending (tasks σ)
  ∧ (∀ aud m, mkEmission aud (EvNewMessage m) ∈ trace σ →
              m ∈ row_msg <$> store σ)
  ∧ (∀ sid roomId userEmail text now,
       sid ∈ connected σ →
       ∃ σ',
         step (SendMessage sid roomId userEmail text now) σ = Some σ'
         ∧ tasks σ' !! next_task σ
           = Some (SendAwaitInsert sid (Msg.mk roomId userEmail text now))
         ∧ store σ' = store σ ∧ trace σ' = trace σ ∧ rooms σ' = rooms σ)
  ∧ (∀ tid sid m,
       tasks σ !! tid = Some (SendAwaitInsert sid m) →
       step (Resume tid) σ = None
       ∧ ∃ σ1,
           step (StoreServe tid Succeed) σ = Some σ1
           ∧ tasks σ1 !! tid = Some (SendInsertDone sid m (Data ()))
           ∧ store σ1 = store σ ++ [insert_row m (store σ)]
           ∧ trace σ1 = trace σ)
  ∧ (∀ tid sid m,
       tasks σ !! tid = Some (SendInsertDone sid m (Data ())) →
       m ∈ row_msg <$> store σ
       ∧ ∃ σ2,
           step (Resume tid) σ = Some σ2
           ∧ trace σ2 = trace σ
               ++ [mkEmission (members (Msg.room_id m) σ) (EvNewMessage m)]
           ∧ store σ2 = store σ
           ∧ tasks σ2 !! tid = None)
  ∧ (∀ tid sid m o,
       tasks σ !! tid = Some (SendAwaitInsert sid m) → o ≠ Succeed →
       ∃ σ1 reply,
         step (StoreServe tid o) σ = Some σ1
         ∧ tasks σ1 !! tid = Some (SendInsertDone sid m reply)
         ∧ reply ≠ Data ()
         ∧ store σ1 = store σ ∧ rooms σ1 = rooms σ
         ∧ connected σ1 = connected σ ∧ trace σ1 = trace σ)
  ∧ (∀ tid sid m reply,
       tasks σ !! tid = Some (SendInsertDone sid m reply) → reply ≠ Data () →
       ∃ σ2,
         step (Resume tid) σ = Some σ2
         ∧ trace σ2 = trace σ
             ++ [mkEmission (if decide (sid ∈ connected σ) then {[sid]} else ∅)
                   (EvError "Failed to send message")]
         ∧ store σ2 = store σ ∧ rooms σ2 = rooms σ
         ∧ connected σ2 = connected σ).
Proof.
  intros Hrun. pose proof (persisted_reachable _ _ Hrun) as [Htr Htk].
  split; [apply (accounted_reachable _ _ Hrun)|]. split; [exact Htr|].
  split.
  { intros sid roomId userEmail text now Hc. eexists. unfold step.
    rewrite decide_True by done. split; [reflexivity|]. simpl.
    by rewrite lookup_insert_eq. }
  split.
  { intros tid sid m Ht. unfold step, resume, store_serve. rewrite Ht.
    split; [done|]. eexists. split; [reflexivity|]. simpl.
    by rewrite lookup_insert_eq. }
  split.
  { intros tid sid m Ht. split; [by eapply Htk|].
    unfold step, resume. rewrite Ht. eexists. split; [reflexivity|]. simpl.
    by rewrite lookup_delete_eq. }
  split.
  - intros tid sid m o Ht Ho. unfold step, store_serve. rewrite Ht.
    destruct o; [done| |]; eexists _, _; (split; [reflexivity|]); simpl;
      rewrite lookup_insert_eq; by repeat split.
  - intros tid sid m reply Ht Hr. unfold step, resume. rewrite Ht.
    destruct reply as [[]| |]; [done| |]; eexists; (split; [reflexivity|]);
      by repeat split.
Qed.

Lemma persist_then_broadcast_witness :
  let σ := after sends_in_progress in
  run sends_in_progress init = Some σ
  ∧ broadcasts (trace σ) = [hi]
  ∧ pending (tasks σ) = [late]
  ∧ row_msg <$> store σ ≡ₚ broadcasts (trace σ) ++ pending (tasks σ)
  ∧ (∃ σ',
       step (SendMessage "alice" "general" "alice@chat.io" "more" 1004) σ
       = Some σ'
       ∧ tasks σ' !! next_task σ
         = Some (SendAwaitInsert "alice"
                   (Msg.mk "general" "alice@chat.io" "more" 1004))
       ∧ store σ' = store σ ∧ trace σ' = trace σ ∧ rooms σ' = rooms σ)
  ∧ step (Resume 4) σ = None
  ∧ (late ∈ row_msg <$> store σ
     ∧ ∃ σ2,
         step (Resume 5) σ = Some σ2
         ∧ trace σ2 = trace σ
             ++ [mkEmission (members (Msg.room_id late) σ) (EvNewMessage late)]
         ∧ store σ2 = store σ
         ∧ tasks σ2 !! 5 = None)
  ∧ (∃ σ1 reply,
       step (StoreServe 4 Fail) σ = Some σ1
       ∧ tasks σ1 !! 4
         = Some (SendInsertDone "bob"
                   (Msg.mk "general" "bob@chat.io" "yo" 1002) reply)
       ∧ reply ≠ Data ()
       ∧ store σ1 = store σ ∧ rooms σ1 = rooms σ
       ∧ connected σ1 = connected σ ∧ trace σ1 = trace σ)
  ∧ ∃ σ2,
      step (Resume 3) σ = Some σ2
      ∧ trace σ2 = trace σ
          ++ [mkEmission (if decide ("alice" ∈ connected σ)
                          then {["alice"]} else ∅)
                (EvError "Failed to send message")]
      ∧ store σ2 = store σ ∧ rooms σ2 = rooms σ
      ∧ connected σ2 = connected σ.
Proof.
  intros σ.
  assert (H : run sends_in_progress init = Some σ) by (vm_compute; reflexivity).
  destruct (persist_then_broadcast sends_in_progress σ H)
    as (Hacc & _ & Hbefore & Hawait & Hdone & Hfail & Herror).
  split; [exact H|]. split; [vm_compute; reflexivity|].
  split; [vm_compute; reflexivity|]. split; [exact Hacc|].
  split.
  { apply Hbefore. vm_compute. reflexivity. }
  split.
  { apply (Hawait 4 "bob" (Msg.mk "general" "bob@chat.io" "yo" 1002)).
    vm_compute. reflexivity. }
  split.
  { apply (Hdone 5 "bob" late). vm_compute. reflexivity. }
  split.
  { apply (Hfail 4 "bob" (Msg.mk "general" "bob@chat.io" "yo" 1002) Fail);
      [vm_compute; reflexivity|discriminate]. }
  apply (Herror 3 "alice" there ErrorField);
    [vm_compute; reflexivity|discriminate].
Defined.
End Accounting.

(** * A history for another join *)

Section Misrouting.

(** C6, at the input where the code breaks it: Alice's client selects
    "general" and then "random" before any [room-history] has arrived, and
    the server handles the two [join-room] events in that order.  The
    [room-history] of the first join, with the two messages of "general", is
    taken by the listener the second [selectRoom] registered; the
    [room-history] of the second join, which is empty, finds no listener.
    The client ends with "random" selected and the messages of "general"
    shown. *)
Theorem second_join_takes_first_history :
  let general := Room.mk "general" "lobby" 10 in
  let random := Room.mk "random" "misc" 20 in
  let c1 := (selectRoom general alice_client).1 in
  let c2 := (selectRoom random c1).1 in
  (σ ← run (join_alone "alice" "general" "alice@chat.io" 4
            ++ join_alone "alice" "random" "alice@chat.io" 5) chatting;
   let c' := deliver_history "alice"
               (drop (length (trace chatting)) (trace σ)) c2 in
   Some (Client.selectedRoom c', Message.text <$> Client.messages c',
         Message.room_id <$> Client.messages c',
         select_messages "random" (store σ)))
  = Some (Some random, ["hi"; "there"], ["general"; "general"], []).
Proof. vm_compute. reflexivity. Qed.
End Misrouting.
